(** * WordleSolver: feedback patterns, entropy scoring and candidate filtering

    A shallow embedding of [src/WordleSolver.py] and the properties of its
    three algorithmic parts: [get_pattern] (with its memoised variant),
    [calculate_entropy] / [get_best_guess], and [update_state] with
    [is_word_valid] and [clean_constraints].

    Python values are embedded as follows.
    - A word is a [str]; it is only iterated, indexed and searched for single
      letters, so it is a [list ascii].
    - A feedback mark is a [str] too (['C'], ['P'], ['A'], and [''] for a
      cell of the pattern that was never written): a [string].
    - [list] objects indexed by position raise [IndexError] out of range.
    - [set] objects are [gset ascii]; [dict] objects are [gmap], except
      [pattern_counts], whose iteration order matters to the float sum and
      which is an association list in insertion order.
    - Exceptions are a [result]; code that mutates [self.state] or the
      class-level pattern cache threads that store explicitly, and a raised
      exception leaves the store as it was mutated so far.
    Console output ([print], [tqdm]) is not modelled. *)

From Stdlib Require Import Ascii.
From stdpp Require Import gmap strings list fin_sets.

Abbreviation Word := (list ascii).
Abbreviation Pattern := (list string).

(** [word_of "CRANE"] is the Python string ['CRANE']. *)
Definition word_of (s : string) : Word := String.list_ascii_of_string s.

(** ** Exceptions *)

Inductive exn : Type := IndexError | KeyError | ZeroDivisionError.

Inductive result (A : Type) : Type :=
  | Ok (a : A)
  | Raise (e : exn).
Arguments Ok {A} a.
Arguments Raise {A} e.

Definition rbind {A B : Type} (r : result A) (k : A → result B) : result B :=
  match r with
  | Ok a => k a
  | Raise e => Raise e
  end.

Notation "'let?' x := r 'in' k" := (rbind r (λ x, k))
  (at level 10, x pattern, r at level 100, k at level 200).

(** A computation over a mutable store [S]: the store is returned in both
    outcomes, since Python keeps the mutations made before a [raise]. *)
Definition M (S A : Type) : Type := S → result A * S.

Definition ret {S A : Type} (a : A) : M S A := λ s, (Ok a, s).

Definition bind {S A B : Type} (m : M S A) (k : A → M S B) : M S B :=
  λ s, match m s with
       | (Ok a, s') => k a s'
       | (Raise e, s') => (Raise e, s')
       end.

Notation "'let!' x := m 'in' k" := (bind m (λ x, k))
  (at level 10, x pattern, m at level 100, k at level 200).

(** [l[i]] and [l[i] = v] on a Python list, for [i ≥ 0]. *)
Definition list_get {A : Type} (l : list A) (i : nat) : result A :=
  match l !! i with
  | Some x => Ok x
  | None => Raise IndexError
  end.

Definition list_set {A : Type} (l : list A) (i : nat) (v : A) : result (list A) :=
  if decide (i < length l) then Ok (<[i:=v]> l) else Raise IndexError.

(** ** Pattern engine: [get_pattern] *)

(** [counts = defaultdict(int)]: a missing key reads as [0]. *)
Definition counts_get (counts : gmap ascii nat) (k : ascii) : nat :=
  default 0 (counts !! k).

Definition counts_incr (counts : gmap ascii nat) (k : ascii) : gmap ascii nat :=
  <[k := counts_get counts k + 1]> counts.

(** [sum(1 for t in target if t == g)] *)
Definition total_in_target (target : Word) (g : ascii) : nat :=
  length (filter (λ t, t = g) target).

(** First loop, over [enumerate(zip(guess, target))] from index [i]. *)
Fixpoint first_pass (i : nat) (pairs : list (ascii * ascii))
    (pattern : Pattern) (counts : gmap ascii nat)
    : result (Pattern * gmap ascii nat) :=
  match pairs with
  | [] => Ok (pattern, counts)
  | (g, t) :: rest =>
      if decide (g = t) then
        let? pattern' := list_set pattern i "C" in
        first_pass (S i) rest pattern' (counts_incr counts t)
      else first_pass (S i) rest pattern counts
  end.

(** Second loop, over [enumerate(guess)] from index [i]. *)
Fixpoint second_pass (i : nat) (guess : Word) (target : Word)
    (pattern : Pattern) (counts : gmap ascii nat)
    : result (Pattern * gmap ascii nat) :=
  match guess with
  | [] => Ok (pattern, counts)
  | g :: rest =>
      let? m := list_get pattern i in
      if decide (m = "C") then second_pass (S i) rest target pattern counts
      else if decide (counts_get counts g < total_in_target target g) then
        let? pattern' := list_set pattern i "P" in
        second_pass (S i) rest target pattern' (counts_incr counts g)
      else
        let? pattern' := list_set pattern i "A" in
        second_pass (S i) rest target pattern' counts
  end.

Definition get_pattern (guess target : Word) : result Pattern :=
  let pattern := replicate 5 EmptyString in
  let counts : gmap ascii nat := ∅ in
  let? (pattern, counts) := first_pass 0 (zip guess target) pattern counts in
  let? (pattern, counts) := second_pass 0 guess target pattern counts in
  Ok pattern.

(** ** The memoised pattern engine: [get_pattern_cached] *)

(** [WordleSolver._pattern_cache], a class attribute shared by all calls. *)
Abbreviation Cache := (gmap (Word * Word) Pattern).

Definition get_pattern_cached (guess target : Word) : M Cache Pattern :=
  λ cache,
    let key := (guess, target) in
    let filled :=
      match cache !! key with
      | None =>
          match get_pattern guess target with
          | Ok p => (Ok (), <[key := p]> cache)
          | Raise e => (Raise e, cache)
          end
      | Some _ => (Ok (), cache)
      end in
    match filled with
    | (Ok _, cache') =>
        match cache' !! key with
        | Some p => (Ok p, cache')
        | None => (Raise KeyError, cache')
        end
    | (Raise e, cache') => (Raise e, cache')
    end.

(** The cache after a sequence of earlier calls, starting from the empty
    class attribute; a call that raised leaves the cache as it was. *)
Definition cache_after (calls : list (Word * Word)) : Cache :=
  foldl (λ cache '(g, t), (get_pattern_cached g t cache).2) ∅ calls.

(** ** The solver object *)

(** [self.state]: the four entries of the dict, as a record. *)
Record State : Type := mkState {
  possible : list Word;
  correct : list ascii;
  present : gset ascii;
  absent : gset ascii
}.

Record Solver : Type := mkSolver {
  answers : list Word;
  allowed : list Word;
  state : State
}.

Definition set_possible (v : list Word) (st : State) : State :=
  mkState v (correct st) (present st) (absent st).
Definition set_correct (v : list ascii) (st : State) : State :=
  mkState (possible st) v (present st) (absent st).
Definition set_present (v : gset ascii) (st : State) : State :=
  mkState (possible st) (correct st) v (absent st).
Definition set_absent (v : gset ascii) (st : State) : State :=
  mkState (possible st) (correct st) (present st) v.

(** The state [__init__] builds from the loaded answer list. *)
Definition initial_state (answers : list Word) : State :=
  mkState answers (replicate 5 "?"%char) ∅ ∅.

(** [__init__], given the two lists [load_valid_words] returned ([allowed] is
    a copy of [answers] when no guess file is given). *)
Definition init (answers : list Word) (guesses : option (list Word)) : Solver :=
  mkSolver answers (default answers guesses) (initial_state answers).

(** The contract of [load_valid_words]: it keeps the lines of length 5. *)
Definition loaded (words : list Word) : Prop := Forall (λ w, length w = 5) words.

(** ** Constraint store: [clean_constraints] and [is_word_valid] *)

Definition clean_constraints (st : State) : State :=
  let st := set_present (filter (λ p, p ∉ correct st) (present st)) st in
  set_absent (filter (λ a, (a ∉ correct st) ∧ (a ∉ present st)) (absent st)) st.

(** [for i, c in enumerate(correct): if c != '?' and word[i] != c: return False];
    [Ok true] when the loop ends without returning. *)
Fixpoint fixed_positions_match (i : nat) (cs : list ascii) (word : Word) : result bool :=
  match cs with
  | [] => Ok true
  | c :: rest =>
      if decide (c ≠ "?"%char) then
        let? x := list_get word i in
        if decide (x ≠ c) then Ok false else fixed_positions_match (S i) rest word
      else fixed_positions_match (S i) rest word
  end.

(** [any(p not in word for p in self.state['present'])] *)
Definition some_present_missing (st : State) (word : Word) : bool :=
  existsb (λ p, bool_decide (p ∉ word)) (elements (present st)).

(** [any(a in word for a in self.state['absent']
         if a not in self.state['correct'] and a not in self.state['present'])] *)
Definition some_absent_occurs (st : State) (word : Word) : bool :=
  existsb (λ a, bool_decide (a ∈ word))
    (filter (λ a, (a ∉ correct st) ∧ (a ∉ present st)) (elements (absent st))).

(** [for i, letter in enumerate(word):
       if letter in present and letter == correct[i]: return False];
    [Ok true] when the loop ends without returning. *)
Fixpoint no_present_at_fixed (i : nat) (letters : Word) (st : State) : result bool :=
  match letters with
  | [] => Ok true
  | letter :: rest =>
      if decide (letter ∈ present st) then
        let? c := list_get (correct st) i in
        if decide (letter = c) then Ok false else no_present_at_fixed (S i) rest st
      else no_present_at_fixed (S i) rest st
  end.

Definition is_word_valid (st : State) (word : Word) : result bool :=
  let? ok := fixed_positions_match 0 (correct st) word in
  if negb ok then Ok false
  else if some_present_missing st word then Ok false
  else if some_absent_occurs st word then Ok false
  else
    let? ok := no_present_at_fixed 0 word st in
    if negb ok then Ok false else Ok true.

(** The first three checks of [is_word_valid] alone. *)
Definition first_three_checks (st : State) (word : Word) : result bool :=
  let? ok := fixed_positions_match 0 (correct st) word in
  if negb ok then Ok false
  else if some_present_missing st word then Ok false
  else if some_absent_occurs st word then Ok false
  else Ok true.

(** ** Constraint store: [update_state] *)

(** One iteration of the feedback loop at index [i]. *)
Definition apply_mark (i : nat) (letter : ascii) (color : string) : M State unit :=
  λ st,
    if decide (color = "C") then
      match list_set (correct st) i letter with
      | Raise e => (Raise e, st)
      | Ok correct' =>
          let st := set_correct correct' st in
          if decide (letter ∈ present st)
          then (Ok (), set_present (present st ∖ {[letter]}) st)
          else (Ok (), st)
      end
    else if decide (color = "P") then
      (Ok (), set_present (present st ∪ {[letter]}) st)
    else if decide (color = "A") then
      (Ok (), set_absent (absent st ∪ {[letter]}) st)
    else (Ok (), st).

(** [for i, (letter, color) in enumerate(feedback): ...] from index [i]. *)
Fixpoint apply_feedback (i : nat) (feedback : list (ascii * string)) : M State unit :=
  match feedback with
  | [] => ret ()
  | (letter, color) :: rest =>
      let! _ := apply_mark i letter color in
      apply_feedback (S i) rest
  end.

(** The loop that fills [new_possible]. *)
Fixpoint filter_possible (st : State) (words : list Word) : result (list Word) :=
  match words with
  | [] => Ok []
  | word :: rest =>
      let? valid := is_word_valid st word in
      let? new_possible := filter_possible st rest in
      Ok (if valid then word :: new_possible else new_possible)
  end.

Definition update_state (guess : Word) (feedback : list (ascii * string)) : M State unit :=
  let! _ := apply_feedback 0 feedback in
  let! _ := (λ st, (Ok (), clean_constraints st)) in
  λ st,
    match filter_possible st (possible st) with
    | Ok new_possible => (Ok (), set_possible new_possible st)
    | Raise e => (Raise e, st)
    end.

(** What [get_feedback_input] hands to [update_state]: [list(zip(guess, fb))]. *)
Definition feedback_of (guess : Word) (fb : Pattern) : list (ascii * string) :=
  zip guess fb.

(** ** Entropy scorer *)

Section Scorer.

(** Python floats and the operations the scorer applies to them.
    [entropy_term count total] is [-(count/total) * math.log2(count/total)]
    for [total ≠ 0]; [int_zero] is the [0] that [sum] starts from. *)
Variable float : Type.
Variable int_zero : float.
Variable neg_inf : float.
Variable fadd : float → float → float.
Variable entropy_term : nat → nat → float.
Variable fgt : float → float → bool.

(** [pattern_counts[pattern] += 1] on a dict that iterates in insertion order. *)
Fixpoint bump (pattern_counts : list (Pattern * nat)) (pattern : Pattern)
    : list (Pattern * nat) :=
  match pattern_counts with
  | [] => [(pattern, 0 + 1)]
  | (q, n) :: rest =>
      if decide (q = pattern) then (q, n + 1) :: rest
      else (q, n) :: bump rest pattern
  end.

(** [for possible in self.state['possible']: ...] *)
Fixpoint tally (word : Word) (words : list Word) (pattern_counts : list (Pattern * nat))
    : M Cache (list (Pattern * nat)) :=
  match words with
  | [] => ret pattern_counts
  | possible :: rest =>
      let! pattern := get_pattern_cached word possible in
      tally word rest (bump pattern_counts pattern)
  end.

(** [sum(-(count/total) * math.log2(count/total) for count in values)]:
    the division raises when [total] is [0]. *)
Fixpoint sum_terms (acc : float) (total : nat) (values : list nat) : result float :=
  match values with
  | [] => Ok acc
  | count :: rest =>
      if decide (total = 0) then Raise ZeroDivisionError
      else sum_terms (fadd acc (entropy_term count total)) total rest
  end.

Definition calculate_entropy (st : State) (word : Word) : M Cache float :=
  let! pattern_counts := tally word (possible st) [] in
  let total := length (possible st) in
  λ cache, (sum_terms int_zero total (pattern_counts.*2), cache).

(** [for word in candidates: ...] with the running [best_word], [best_score]. *)
Fixpoint best_loop (st : State) (candidates : list Word)
    (best_word : option Word) (best_score : float) : M Cache (option Word) :=
  match candidates with
  | [] => ret best_word
  | word :: rest =>
      let! score := calculate_entropy st word in
      if fgt score best_score then best_loop st rest (Some word) score
      else best_loop st rest best_word best_score
  end.

Definition get_best_guess (solver : Solver) : M Cache (option Word) :=
  let candidates := take 2315 (allowed solver) in
  best_loop (state solver) candidates None neg_inf.

(** The score of a word for a list of candidates, read off
    [calculate_entropy] with [get_pattern] in place of its memoised variant;
    [calculate_entropy_valid] relates the two. *)
Fixpoint tally_patterns (word : Word) (words : list Word)
    (pattern_counts : list (Pattern * nat)) : result (list (Pattern * nat)) :=
  match words with
  | [] => Ok pattern_counts
  | possible :: rest =>
      let? pattern := get_pattern word possible in
      tally_patterns word rest (bump pattern_counts pattern)
  end.

Definition entropy (words : list Word) (word : Word) : result float :=
  let? pattern_counts := tally_patterns word words [] in
  sum_terms int_zero (length words) (pattern_counts.*2).

(** [candidates[i]] is [w], its score is strictly greater than the score of
    every candidate before it, and no later candidate has a greater score. *)
Definition first_maximum (words candidates : list Word) (i : nat) (w : Word) : Prop :=
  ∃ s, candidates !! i = Some w
       ∧ entropy words w = Ok s
       ∧ (∀ j wj sj, j < i → candidates !! j = Some wj → entropy words wj = Ok sj →
            fgt s sj = true)
       ∧ (∀ k wk sk, i < k → candidates !! k = Some wk → entropy words wk = Ok sk →
            fgt sk s = false).

End Scorer.

(** ** Notions used to state the properties *)

(** Every entry of the cache is what [get_pattern] returns for its key. *)
Definition cache_valid (cache : Cache) : Prop :=
  ∀ g t p, cache !! (g, t) = Some p → get_pattern g t = Ok p.

(** The cleaned-state invariant of the knowledge state. *)
Definition present_not_fixed (st : State) : Prop :=
  ∀ p, p ∈ present st → p ∉ correct st.

Definition absent_not_known (st : State) : Prop :=
  ∀ a, a ∈ absent st → (a ∉ correct st) ∧ (a ∉ present st).

(** [marked c m guess pattern]: the number of positions at which the guess
    has letter [c] and the pattern has mark [m]. *)
Definition marked (c : ascii) (m : string) (guess : Word) (pattern : Pattern) : nat :=
  length (filter (λ gm, gm = (c, m)) (zip guess pattern)).

(** The two loops of [get_pattern] read as functions of the cells they
    write (the cells before and after them are left alone); the lemmas
    [first_pass_run] and [second_pass_run] relate them to the loops. *)
Fixpoint exact_marks (pairs : list (ascii * ascii)) (cells : Pattern) : Pattern :=
  match pairs, cells with
  | (g, t) :: pairs', m :: cells' =>
      (if decide (g = t) then "C" else m) :: exact_marks pairs' cells'
  | _, _ => cells
  end.

Fixpoint exact_counts (pairs : list (ascii * ascii)) (counts : gmap ascii nat)
    : gmap ascii nat :=
  match pairs with
  | [] => counts
  | (g, t) :: pairs' =>
      exact_counts pairs' (if decide (g = t) then counts_incr counts t else counts)
  end.

Fixpoint budget_marks (guess target : Word) (cells : Pattern) (counts : gmap ascii nat)
    : Pattern :=
  match guess, cells with
  | g :: guess', m :: cells' =>
      if decide (m = "C") then m :: budget_marks guess' target cells' counts
      else if decide (counts_get counts g < total_in_target target g) then
        "P" :: budget_marks guess' target cells' (counts_incr counts g)
      else "A" :: budget_marks guess' target cells' counts
  | _, _ => cells
  end.

(** Positions of a list of letter pairs that agree on the letter [c], and
    positions of the guess that hold [c] and are not marked Correct. *)
Definition matched (c : ascii) (pairs : list (ascii * ascii)) : nat :=
  length (filter (λ p, p.1 = p.2 ∧ p.2 = c) pairs).

Definition unmatched (c : ascii) (guess : Word) (cells : Pattern) : nat :=
  length (filter (λ gm, gm.1 = c ∧ gm.2 ≠ "C") (zip guess cells)).

(** A word meets the constraints of a state: the three conditions the first
    three checks of [is_word_valid] test. *)
Definition satisfies (st : State) (word : Word) : Prop :=
  (∀ i c, correct st !! i = Some c → c ≠ "?"%char → word !! i = Some c)
  ∧ (∀ p, p ∈ present st → p ∈ word)
  ∧ (∀ a, a ∈ absent st → a ∉ correct st → a ∉ present st → a ∉ word).

(** The knowledge states of a session: the state [__init__] builds from the
    loaded answers, and every state a returning [update_state] leaves, for
    whatever guess and feedback (truthful or not). *)
Inductive reachable (answers : list Word) : State → Prop :=
  | reachable_init : reachable answers (initial_state answers)
  | reachable_update (st st' : State) (guess : Word) (feedback : list (ascii * string)) :
      reachable answers st →
      update_state guess feedback st = (Ok (), st') →
      reachable answers st'.

(** What holds of every reachable state: five fixed-position cells,
    five-letter candidates, each of them valid for the state. *)
Definition consistent (st : State) : Prop :=
  length (correct st) = 5
  ∧ Forall (λ w, length w = 5) (possible st)
  ∧ Forall (λ w, is_word_valid st w = Ok true) (possible st).

(** [misplaced x guess target i]: the occurrences of [x] among the first [i]
    letters of the guess that do not face [x] in the target. *)
Fixpoint misplaced (x : ascii) (guess target : Word) (i : nat) : nat :=
  match i, guess with
  | S i', g :: guess' =>
      (if decide (g = x ∧ head target ≠ Some x) then 1 else 0)
      + misplaced x guess' (tail target) i'
  | _, _ => 0
  end.

#[global] Instance exn_eq_dec : EqDecision exn.
Proof. solve_decision. Defined.

#[global] Instance result_eq_dec {A : Type} `{EqDecision A} : EqDecision (result A).
Proof. solve_decision. Defined.

(** The count a [pattern_counts] dict holds for a pattern ([0] when the
    pattern is no key of it). *)
Definition tallied (pattern_counts : list (Pattern * nat)) (p : Pattern) : nat :=
  sum_list (filter (λ e, e.1 = p) pattern_counts).*2.

(** The feedback holds a Correct or Present mark for the letter [l]: the
    two marks that write to the [present] set. *)
Definition touches (feedback : list (ascii * string)) (l : ascii) : Prop :=
  ∃ j color, feedback !! j = Some (l, color) ∧ (color = "C" ∨ color = "P").

(** A session against a fixed secret with a truthful player: each guess is
    answered with its pattern against the secret, zipped with the guess as
    [get_feedback_input] does, and handed to [update_state] as in [main]. *)
Fixpoint play (secret : Word) (guesses : list Word) : M State unit :=
  match guesses with
  | [] => ret ()
  | guess :: rest =>
      λ st,
        match get_pattern guess secret with
        | Ok pattern =>
            (let! _ := update_state guess (feedback_of guess pattern) in
             play secret rest) st
        | Raise e => (Raise e, st)
        end
  end.

(** ** Loading, prompting and the session driver *)

(** The exceptions of the parts that read files and the console. Other
    failures of [open] and [input] (permissions, decoding) are not modelled. *)
Inductive io_exn : Type := ValueError | FileNotFoundError | EOFError.

Inductive io_result (A : Type) : Type :=
  | Returned (a : A)
  | Failed (e : io_exn).
Arguments Returned {A} a.
Arguments Failed {A} e.

(** How [main] can end other than by finishing its loop. *)
Inductive failure : Type :=
  | CoreError (e : exn)
  | IoError (e : io_exn).

Section Console.

(** [str.upper] and [str.strip], the built-in methods applied to the lines
    of a file and to the typed feedback. *)
Variable str_upper : Word → Word.
Variable str_strip : Word → Word.

(** [load_valid_words]: the file system maps a path to the lines its file
    iterates over; a path it does not hold makes [open] raise. *)
Definition load_valid_words (files : gmap string (list Word)) (file_path : string)
    : io_result (list Word) :=
  match files !! file_path with
  | None => Failed FileNotFoundError
  | Some f =>
      let words :=
        map (λ word, str_upper (str_strip word))
          (filter (λ word, length (str_strip word) = 5) f) in
      if decide (words = []) then Failed ValueError else Returned words
  end.

(** [WordleSolver(answer_path, guess_path)]: [guess_path] is used when it is
    truthy, that is neither [None] nor the empty string. *)
Definition new_solver (files : gmap string (list Word)) (answer_path : string)
    (guess_path : option string) : io_result Solver :=
  match load_valid_words files answer_path with
  | Failed e => Failed e
  | Returned answers =>
      match guess_path with
      | Some path =>
          if decide (path ≠ EmptyString) then
            match load_valid_words files path with
            | Failed e => Failed e
            | Returned guesses => Returned (init answers (Some guesses))
            end
          else Returned (init answers None)
      | None => Returned (init answers None)
      end
  end.

(** [get_feedback_input]: the lines [input] will return are consumed one by
    one until one passes the check; [input] raises [EOFError] when none is
    left. The pairs [zip(guess, fb)] hold one-character strings. *)
Fixpoint get_feedback_input (guess : Word) (inputs : list Word)
    : io_result (list (ascii * string)) * list Word :=
  match inputs with
  | [] => (Failed EOFError, [])
  | line :: rest =>
      let fb := filter (λ c, c ≠ " "%char) (str_upper line) in
      if decide (length fb = 5 ∧ Forall (λ c, c ∈ word_of "CPA") fb) then
        (Returned (zip guess (map (λ c, String c EmptyString) fb)), rest)
      else get_feedback_input guess rest
  end.

Variable float : Type.
Variable int_zero : float.
Variable neg_inf : float.
Variable fadd : float → float → float.
Variable entropy_term : nat → nat → float.
Variable fgt : float → float → bool.

(** What [main] leaves: how it ended ([None]: the loop finished or broke
    off), the solver, the class-level cache and the unread input lines. *)
Record Ending : Type := mkEnding {
  failed : option failure;
  final : Solver;
  final_cache : Cache;
  unread : list Word
}.

(** [for attempt in range(5): ...] with [attempts] rounds to go. *)
Fixpoint main_loop (attempts : nat) (solver : Solver) (cache : Cache)
    (inputs : list Word) : Ending :=
  match attempts with
  | 0 => mkEnding None solver cache inputs
  | S attempts' =>
      match get_best_guess float int_zero neg_inf fadd entropy_term fgt solver cache with
      | (Raise e, cache') => mkEnding (Some (CoreError e)) solver cache' inputs
      | (Ok None, cache') => mkEnding None solver cache' inputs
      | (Ok (Some best_guess), cache') =>
          if decide (best_guess = []) then mkEnding None solver cache' inputs
          else
            match get_feedback_input best_guess inputs with
            | (Failed e, inputs') => mkEnding (Some (IoError e)) solver cache' inputs'
            | (Returned feedback, inputs') =>
                match update_state best_guess feedback (state solver) with
                | (Raise e, st') =>
                    mkEnding (Some (CoreError e))
                      (mkSolver (answers solver) (allowed solver) st') cache' inputs'
                | (Ok _, st') =>
                    let solver' := mkSolver (answers solver) (allowed solver) st' in
                    if decide (length (possible st') = 1)
                    then mkEnding None solver' cache' inputs'
                    else main_loop attempts' solver' cache' inputs'
                end
            end
      end
  end.

(** [main]: both word lists are loaded from the path ["filepath"]; a
    failure to load leaves no solver. *)
Definition main (files : gmap string (list Word)) (cache : Cache) (inputs : list Word)
    : io_exn + Ending :=
  match new_solver files "filepath" (Some "filepath") with
  | Failed e => inl e
  | Returned solver => inr (main_loop 5 solver cache inputs)
  end.

End Console.

(** An instance of the two string methods for ASCII text, to run the
    loader, the prompt and [main] on examples: [upper] maps [a]-[z] to
    [A]-[Z], and [strip] removes the leading and trailing characters that
    [str.isspace] accepts among the ASCII ones (codes 9 to 13 and 28 to 32). *)
Definition ascii_upper (c : ascii) : ascii :=
  let n := nat_of_ascii c in
  if decide (97 ≤ n ∧ n ≤ 122) then ascii_of_nat (n - 32) else c.

Definition upper_text (w : Word) : Word := map ascii_upper w.

Definition ascii_space (c : ascii) : bool :=
  let n := nat_of_ascii c in
  bool_decide ((9 ≤ n ∧ n ≤ 13) ∨ (28 ≤ n ∧ n ≤ 32)).

Fixpoint lstrip_text (w : Word) : Word :=
  match w with
  | c :: rest => if ascii_space c then lstrip_text rest else w
  | [] => []
  end.

Definition strip_text (w : Word) : Word :=
  reverse (lstrip_text (reverse (lstrip_text w))).

(** [line "crane"] is the line ['crane\n'] of a file. *)
Definition line (s : string) : Word := word_of s ++ [ascii_of_nat 10].

(** * Properties *)

(** ** Basic facts about the store monad and Python lists *)

Lemma list_get_Ok {A : Type} (l : list A) (i : nat) (x : A) :
  list_get l i = Ok x ↔ l !! i = Some x.
Proof. unfold list_get. destruct (l !! i); split; congruence. Qed.

Lemma list_get_lt {A : Type} (l : list A) (i : nat) :
  i < length l → ∃ x, list_get l i = Ok x ∧ l !! i = Some x.
Proof.
  intros Hi. destruct (lookup_lt_is_Some_2 l i Hi) as [x Hx].
  exists x. split; [by apply list_get_Ok | done].
Qed.

Lemma list_set_lt {A : Type} (l : list A) (i : nat) (v : A) :
  i < length l → list_set l i v = Ok (<[i:=v]> l).
Proof. intros Hi. unfold list_set. by rewrite decide_True. Qed.

Lemma list_set_Ok {A : Type} (l l' : list A) (i : nat) (v : A) :
  list_set l i v = Ok l' → i < length l ∧ l' = <[i:=v]> l.
Proof. unfold list_set. case_decide; [|done]. intros [= <-]. done. Qed.

(** ** The literal scenario of the specification *)

(** C3, as the code computes it: for guess CRANE and target SLATE the
    pattern is (Absent, Absent, Correct, Absent, Correct); the letters A and
    E sit at the same positions in both words and R does not occur in SLATE. *)
Theorem get_pattern_crane_slate :
  get_pattern (word_of "CRANE") (word_of "SLATE") = Ok ["A"; "A"; "C"; "A"; "C"].
Proof. vm_compute. reflexivity. Qed.

(** C3, as the specification states it, does not hold: [get_pattern] does
    not return (Absent, Present, Absent, Correct, Present) on CRANE / SLATE. *)
Lemma get_pattern_crane_slate_not_spec :
  get_pattern (word_of "CRANE") (word_of "SLATE") ≠ Ok ["A"; "P"; "A"; "C"; "P"].
Proof. vm_compute. discriminate. Qed.

(** The duplicate-letter scenario: SPEED against ERASE. *)
Example get_pattern_speed_erase :
  get_pattern (word_of "SPEED") (word_of "ERASE") = Ok ["P"; "A"; "P"; "P"; "A"].
Proof. vm_compute. reflexivity. Qed.

(** ** Cleanup *)

(** C7: [clean_constraints] is idempotent: a second run changes nothing, in
    particular not the [present] and [absent] sets. *)
Theorem clean_constraints_idempotent (st : State) :
  clean_constraints (clean_constraints st) = clean_constraints st.
Proof.
  destruct st as [ps cs pr ab]. unfold clean_constraints. simpl.
  unfold set_absent, set_present. simpl. f_equal.
  - apply set_eq. intros x. rewrite !elem_of_filter. tauto.
  - apply set_eq. intros x. rewrite !elem_of_filter. tauto.
Qed.

Lemma clean_constraints_present (st : State) (p : ascii) :
  p ∈ present (clean_constraints st) ↔ p ∈ present st ∧ (p ∉ correct st).
Proof. unfold clean_constraints. simpl. rewrite elem_of_filter. tauto. Qed.

Lemma clean_constraints_absent (st : State) (a : ascii) :
  a ∈ absent (clean_constraints st) ↔
  a ∈ absent st ∧ (a ∉ correct st) ∧ (a ∉ present (clean_constraints st)).
Proof.
  unfold clean_constraints. simpl. rewrite !elem_of_filter. tauto.
Qed.

Lemma clean_constraints_correct (st : State) :
  correct (clean_constraints st) = correct st.
Proof. reflexivity. Qed.

Lemma clean_constraints_possible (st : State) :
  possible (clean_constraints st) = possible st.
Proof. reflexivity. Qed.

(** ** Monotonic shrinkage of the candidates *)

Lemma apply_mark_possible (i : nat) (letter : ascii) (color : string) (st : State) :
  possible (apply_mark i letter color st).2 = possible st.
Proof.
  unfold apply_mark. repeat case_decide; try done.
  destruct (list_set (correct st) i letter); [|done].
  simpl. case_decide; done.
Qed.

Lemma apply_feedback_possible (feedback : list (ascii * string)) (i : nat) (st : State) :
  possible (apply_feedback i feedback st).2 = possible st.
Proof.
  revert i st. induction feedback as [|[letter color] rest IH]; intros i st; [done|].
  simpl. unfold bind.
  pose proof (apply_mark_possible i letter color st) as Hm.
  destruct (apply_mark i letter color st) as [[[]|e] st1]; simpl in *.
  - by rewrite IH.
  - done.
Qed.

Lemma filter_possible_sublist (st : State) (words new_possible : list Word) :
  filter_possible st words = Ok new_possible → new_possible `sublist_of` words.
Proof.
  revert new_possible. induction words as [|w rest IH]; intros np; simpl.
  - intros [= <-]. constructor.
  - destruct (is_word_valid st w) as [valid|e]; simpl; [|done].
    destruct (filter_possible st rest) as [r|e]; simpl; [|done].
    intros [= <-]. destruct valid.
    + apply sublist_skip, IH. done.
    + apply sublist_cons, IH. done.
Qed.

Lemma update_state_unfold (guess : Word) (feedback : list (ascii * string)) (st : State) :
  update_state guess feedback st =
  match apply_feedback 0 feedback st with
  | (Ok _, st1) =>
      let st2 := clean_constraints st1 in
      match filter_possible st2 (possible st2) with
      | Ok new_possible => (Ok (), set_possible new_possible st2)
      | Raise e => (Raise e, st2)
      end
  | (Raise e, st1) => (Raise e, st1)
  end.
Proof.
  unfold update_state, bind.
  destruct (apply_feedback 0 feedback st) as [[[]|e] st1]; done.
Qed.

(** C5: whatever the state, the guess and the feedback, and whether the call
    returns or raises, the [possible] list after [update_state] is a sublist
    of the one before: every word of it was a candidate before, and the
    candidates never grow in number. *)
Theorem update_state_shrinks (st : State) (guess : Word) (feedback : list (ascii * string)) :
  let st' := (update_state guess feedback st).2 in
  possible st' `sublist_of` possible st
  ∧ (∀ w, w ∈ possible st' → w ∈ possible st)
  ∧ length (possible st') ≤ length (possible st).
Proof.
  assert (possible (update_state guess feedback st).2 `sublist_of` possible st) as Hsub.
  { rewrite update_state_unfold.
    pose proof (apply_feedback_possible feedback 0 st) as Hp.
    destruct (apply_feedback 0 feedback st) as [[[]|e] st1]; simpl in *.
    - destruct (filter_possible (clean_constraints st1) (possible st1)) as [np|e] eqn:Hf;
        simpl.
      + apply filter_possible_sublist in Hf. by rewrite <- Hp.
      + by rewrite Hp.
    - by rewrite Hp. }
  simpl. split; [done|]. split.
  - intros w Hw. eapply sublist_submseteq, elem_of_submseteq in Hsub; done.
  - by apply sublist_length.
Qed.

(** ** The knowledge-state invariant *)

Lemma clean_constraints_invariant (st : State) :
  present_not_fixed (clean_constraints st) ∧ absent_not_known (clean_constraints st).
Proof.
  split.
  - intros p Hp. apply clean_constraints_present in Hp. tauto.
  - intros a Ha. apply clean_constraints_absent in Ha.
    rewrite clean_constraints_correct. tauto.
Qed.

Lemma apply_mark_correct_length (i : nat) (letter : ascii) (color : string) (st : State) :
  length (correct (apply_mark i letter color st).2) = length (correct st).
Proof.
  unfold apply_mark. repeat case_decide; try done.
  destruct (list_set (correct st) i letter) as [c'|e] eqn:Hset; [|done].
  apply list_set_Ok in Hset as [_ ->].
  simpl. case_decide; simpl; by rewrite length_insert.
Qed.

Lemma apply_mark_Ok (i : nat) (letter : ascii) (color : string) (st : State) :
  i < length (correct st) → (apply_mark i letter color st).1 = Ok ().
Proof.
  intros Hi. unfold apply_mark. repeat case_decide; try done.
  rewrite list_set_lt by done. simpl. case_decide; done.
Qed.

Lemma apply_feedback_correct_length (feedback : list (ascii * string)) (i : nat) (st : State) :
  length (correct (apply_feedback i feedback st).2) = length (correct st).
Proof.
  revert i st. induction feedback as [|[letter color] rest IH]; intros i st; [done|].
  simpl. unfold bind.
  pose proof (apply_mark_correct_length i letter color st) as Hm.
  destruct (apply_mark i letter color st) as [[[]|e] st1]; simpl in *.
  - by rewrite IH.
  - done.
Qed.

(** The feedback loop cannot raise when the feedback is no longer than the
    [correct] list it writes to. *)
Lemma apply_feedback_Ok (feedback : list (ascii * string)) (i : nat) (st : State) :
  i + length feedback ≤ length (correct st) → (apply_feedback i feedback st).1 = Ok ().
Proof.
  revert i st. induction feedback as [|[letter color] rest IH]; intros i st Hlen; [done|].
  simpl in *. unfold bind.
  pose proof (apply_mark_correct_length i letter color st) as Hm.
  pose proof (apply_mark_Ok i letter color st ltac:(lia)) as Hok.
  destruct (apply_mark i letter color st) as [[[]|e] st1]; simpl in *; [|done].
  apply IH. lia.
Qed.

Lemma update_state_after_loop (guess : Word) (feedback : list (ascii * string)) (st : State) :
  (apply_feedback 0 feedback st).1 = Ok () →
  ∃ st1 new_possible,
    (update_state guess feedback st).2 = set_possible new_possible (clean_constraints st1).
Proof.
  intros Hok. rewrite update_state_unfold.
  destruct (apply_feedback 0 feedback st) as [[[]|e] st1]; simpl in *; [|done].
  destruct (filter_possible _ _) as [np|e]; simpl.
  - by exists st1, np.
  - exists st1, (possible st1). by destruct st1.
Qed.

(** C8: after a call of [update_state] whose feedback is no longer than the
    [correct] list (five marks for five positions), the required letters are
    disjoint from the letters recorded in [correct], and no excluded letter
    is recorded in [correct] or required; this holds in the state the call
    leaves behind, also when the filtering loop raises. *)
Theorem update_state_invariant (st : State) (guess : Word) (feedback : list (ascii * string)) :
  length feedback ≤ length (correct st) →
  let st' := (update_state guess feedback st).2 in
  present_not_fixed st' ∧ absent_not_known st'.
Proof.
  intros Hlen.
  destruct (update_state_after_loop guess feedback st) as (st1 & np & Heq).
  { apply apply_feedback_Ok. simpl. lia. }
  simpl. rewrite Heq. apply (clean_constraints_invariant st1).
Qed.

Lemma update_state_invariant_witness :
  let st := initial_state [word_of "CRANE"; word_of "SLATE"] in
  let feedback := feedback_of (word_of "CRANE") ["A"; "A"; "C"; "A"; "C"] in
  let st' := (update_state (word_of "CRANE") feedback st).2 in
  present_not_fixed st' ∧ absent_not_known st'.
Proof.
  apply (update_state_invariant
           (initial_state [word_of "CRANE"; word_of "SLATE"]) (word_of "CRANE")
           (feedback_of (word_of "CRANE") ["A"; "A"; "C"; "A"; "C"])).
  vm_compute. lia.
Defined.

(** The same invariant for every call that returns normally. *)
Lemma update_state_invariant_on_return (st st' : State) (guess : Word)
    (feedback : list (ascii * string)) :
  update_state guess feedback st = (Ok (), st') →
  present_not_fixed st' ∧ absent_not_known st'.
Proof.
  rewrite update_state_unfold.
  destruct (apply_feedback 0 feedback st) as [[[]|e] st1]; simpl; [|done].
  destruct (filter_possible _ _) as [np|e]; simpl; [|done].
  intros [= <-]. apply (clean_constraints_invariant st1).
Qed.

(** ** The fourth check of [is_word_valid] under the cleaned invariant *)

Lemma no_present_at_fixed_never_fires (st : State) (letters : Word) (i : nat) :
  present_not_fixed st → no_present_at_fixed i letters st ≠ Ok false.
Proof.
  intros Hinv. revert i. induction letters as [|letter rest IH]; intros i; simpl; [done|].
  case_decide as Hp; [|apply IH].
  destruct (list_get (correct st) i) as [c|e] eqn:Hget; simpl; [|done].
  case_decide as Hc; [|apply IH].
  subst c. apply list_get_Ok, list_elem_of_lookup_2 in Hget.
  by destruct (Hinv letter Hp).
Qed.

Lemma no_present_at_fixed_passes (st : State) (letters : Word) (i : nat) :
  present_not_fixed st → i + length letters ≤ length (correct st) →
  no_present_at_fixed i letters st = Ok true.
Proof.
  intros Hinv. revert i. induction letters as [|letter rest IH]; intros i Hlen; simpl in *;
    [done|].
  case_decide as Hp; [|apply IH; lia].
  destruct (list_get_lt (correct st) i ltac:(lia)) as (c & -> & Hc). simpl.
  case_decide as Heq; [|apply IH; lia].
  subst c. apply list_elem_of_lookup_2 in Hc. by destruct (Hinv letter Hp).
Qed.

(** C10: in a state where no required letter is recorded in [correct] (what
    [clean_constraints] establishes), and for a word no longer than the
    [correct] list (five letters against five positions), the last loop of
    [is_word_valid] runs to its end without returning [False], and
    [is_word_valid] gives exactly the result of its first three checks. *)
Theorem is_word_valid_three_checks (st : State) (word : Word) :
  present_not_fixed st →
  length word ≤ length (correct st) →
  no_present_at_fixed 0 word st = Ok true
  ∧ is_word_valid st word = first_three_checks st word.
Proof.
  intros Hinv Hlen.
  assert (no_present_at_fixed 0 word st = Ok true) as Hlast
    by (apply no_present_at_fixed_passes; simpl; done).
  split; [done|].
  unfold is_word_valid, first_three_checks.
  destruct (fixed_positions_match 0 (correct st) word) as [[]|e]; simpl; try done.
  destruct (some_present_missing st word); [done|].
  destruct (some_absent_occurs st word); [done|].
  by rewrite Hlast.
Qed.

Lemma is_word_valid_three_checks_witness :
  let st := clean_constraints
              (mkState [word_of "SLATE"] (word_of "??A?E") {[ "A"%char; "L"%char ]}
                 {[ "C"%char; "E"%char ]}) in
  no_present_at_fixed 0 (word_of "SLATE") st = Ok true
  ∧ is_word_valid st (word_of "SLATE") = first_three_checks st (word_of "SLATE").
Proof.
  apply (is_word_valid_three_checks
           (clean_constraints
              (mkState [word_of "SLATE"] (word_of "??A?E") {[ "A"%char; "L"%char ]}
                 {[ "C"%char; "E"%char ]}))
           (word_of "SLATE")).
  - apply (clean_constraints_invariant
             (mkState [word_of "SLATE"] (word_of "??A?E") {[ "A"%char; "L"%char ]}
                {[ "C"%char; "E"%char ]})).
  - vm_compute. lia.
Defined.

(** Outside that domain the last loop can raise: a six-letter word whose
    sixth letter is required reads [correct[5]]. *)
Example is_word_valid_six_letters :
  let st := mkState [] (word_of "?????") {[ "A"%char ]} ∅ in
  first_three_checks st (word_of "BBBBBA") = Ok true
  ∧ is_word_valid st (word_of "BBBBBA") = Raise IndexError.
Proof. vm_compute. done. Qed.

(** ** The memoised pattern engine *)

Lemma cache_valid_empty : cache_valid ∅.
Proof. intros g t p. by rewrite lookup_empty. Qed.

(** On a valid cache the memoised call returns what [get_pattern] returns,
    an exception included, and leaves a valid cache. *)
Lemma get_pattern_cached_valid (guess target : Word) (cache : Cache) :
  cache_valid cache →
  (get_pattern_cached guess target cache).1 = get_pattern guess target
  ∧ cache_valid (get_pattern_cached guess target cache).2.
Proof.
  intros Hvalid. unfold get_pattern_cached.
  destruct (cache !! (guess, target)) as [p|] eqn:Hhit.
  - rewrite Hhit. simpl. split; [|done]. symmetry. by apply Hvalid.
  - destruct (get_pattern guess target) as [p|e] eqn:Hp; [|done].
    rewrite lookup_insert_eq. simpl. split; [done|].
    intros g t q. destruct (decide ((guess, target) = (g, t))) as [[= <- <-]|Hne].
    + rewrite lookup_insert_eq. by intros [= <-].
    + rewrite lookup_insert_ne by done. apply Hvalid.
Qed.

Lemma cache_after_from_valid (calls : list (Word * Word)) (cache : Cache) :
  cache_valid cache →
  cache_valid (foldl (λ cache '(g, t), (get_pattern_cached g t cache).2) cache calls).
Proof.
  revert cache. induction calls as [|[g t] rest IH]; intros cache Hvalid; [done|].
  simpl. apply IH. by apply get_pattern_cached_valid.
Qed.

Lemma cache_after_valid (calls : list (Word * Word)) : cache_valid (cache_after calls).
Proof. apply cache_after_from_valid, cache_valid_empty. Qed.

(** C9: whatever calls were made before (so whatever the cache holds by
    then), [get_pattern_cached guess target] returns exactly what
    [get_pattern guess target] returns, be it a pattern or an exception. *)
Theorem get_pattern_cached_refines (calls : list (Word * Word)) (guess target : Word) :
  (get_pattern_cached guess target (cache_after calls)).1 = get_pattern guess target.
Proof. apply get_pattern_cached_valid, cache_after_valid. Qed.

(** The cache only grows, and never changes an entry. *)
Lemma get_pattern_cached_grows (guess target : Word) (cache : Cache) :
  cache ⊆ (get_pattern_cached guess target cache).2.
Proof.
  unfold get_pattern_cached.
  destruct (cache !! (guess, target)) as [p|] eqn:Hhit.
  - by rewrite Hhit.
  - destruct (get_pattern guess target) as [p|e]; [|done].
    rewrite lookup_insert_eq. simpl. by apply insert_subseteq.
Qed.

(** ** Scoring with no candidate left *)

Section EmptyPossible.

Variable float : Type.
Variable int_zero : float.
Variable neg_inf : float.
Variable fadd : float → float → float.
Variable entropy_term : nat → nat → float.
Variable fgt : float → float → bool.

Lemma calculate_entropy_nil (cs : list ascii) (pr ab : gset ascii)
    (word : Word) (cache : Cache) :
  calculate_entropy float int_zero fadd entropy_term (mkState [] cs pr ab) word cache
  = (sum_terms float fadd entropy_term int_zero 0 [], cache).
Proof. reflexivity. Qed.

(** C4, what the code does: with an empty [possible] list no pattern is
    tallied, the generator handed to [sum] is empty, no division takes
    place, and [calculate_entropy] returns the ordinary score [0] without
    raising, leaving the cache untouched. *)
Theorem calculate_entropy_empty_possible (cs : list ascii) (pr ab : gset ascii)
    (word : Word) (cache : Cache) :
  calculate_entropy float int_zero fadd entropy_term (mkState [] cs pr ab) word cache
  = (Ok int_zero, cache).
Proof. rewrite calculate_entropy_nil. simpl. reflexivity. Qed.

Lemma best_loop_empty_possible (cs : list ascii) (pr ab : gset ascii)
    (candidates : list Word) (best : Word) (cache : Cache) :
  fgt int_zero int_zero = false →
  best_loop float int_zero fadd entropy_term fgt (mkState [] cs pr ab) candidates
    (Some best) int_zero cache
  = (Ok (Some best), cache).
Proof.
  intros Hirr. induction candidates as [|w rest IH]; [done|].
  simpl. unfold bind. rewrite calculate_entropy_nil. simpl. rewrite Hirr. apply IH.
Qed.

(** Hence [get_best_guess] recommends the first allowed word, and the
    [if not best_guess] branch of [main] ("NO MORE POSSIBLE WORDS!") is not
    taken when the candidates have run out. *)
Lemma get_best_guess_empty_possible (answers : list Word) (first : Word)
    (rest : list Word) (cs : list ascii) (pr ab : gset ascii) (cache : Cache) :
  fgt int_zero neg_inf = true →
  fgt int_zero int_zero = false →
  get_best_guess float int_zero neg_inf fadd entropy_term fgt
    (mkSolver answers (first :: rest) (mkState [] cs pr ab)) cache
  = (Ok (Some first), cache).
Proof.
  intros Hinf Hirr. unfold get_best_guess. simpl. unfold bind.
  rewrite calculate_entropy_nil. simpl. rewrite Hinf.
  by apply best_loop_empty_possible.
Qed.

End EmptyPossible.

(** A state with no candidate left is reached by contradictory feedback. *)
Example update_state_contradictory_feedback :
  update_state (word_of "CRANE") (feedback_of (word_of "CRANE") ["A"; "A"; "A"; "A"; "A"])
    (initial_state [word_of "CRANE"])
  = (Ok (), mkState [] (word_of "?????") ∅
              {[ "C"%char; "R"%char; "A"%char; "N"%char; "E"%char ]}).
Proof. vm_compute. reflexivity. Qed.

(** ** The pattern engine *)

Lemma counts_get_empty (c : ascii) : counts_get ∅ c = 0.
Proof. unfold counts_get. by rewrite lookup_empty. Qed.

Lemma counts_get_incr (counts : gmap ascii nat) (k c : ascii) :
  counts_get (counts_incr counts k) c =
  if decide (k = c) then counts_get counts c + 1 else counts_get counts c.
Proof.
  unfold counts_incr. unfold counts_get at 1. rewrite lookup_insert.
  case_decide; [by subst|done].
Qed.

Lemma app_cons_shift {A : Type} (pre : list A) (m : A) (cells : list A) :
  pre ++ m :: cells = (pre ++ [m]) ++ cells.
Proof. by rewrite <- app_assoc. Qed.

Lemma insert_after_prefix {A : Type} (pre : list A) (m x : A) (cells : list A) :
  <[length pre := x]> (pre ++ m :: cells) = (pre ++ [x]) ++ cells.
Proof.
  rewrite insert_app_r_alt by lia. rewrite Nat.sub_diag. simpl. apply app_cons_shift.
Qed.

Lemma first_pass_run (pairs : list (ascii * ascii)) (i : nat) (pre cells : Pattern)
    (counts : gmap ascii nat) :
  length pre = i → length pairs ≤ length cells →
  first_pass i pairs (pre ++ cells) counts
  = Ok (pre ++ exact_marks pairs cells, exact_counts pairs counts).
Proof.
  revert i pre cells counts.
  induction pairs as [|[g t] rest IH]; intros i pre cells counts Hi Hlen; [done|].
  destruct cells as [|m cells]; simpl in Hlen; [lia|].
  simpl. case_decide as Hgt.
  - rewrite list_set_lt by (rewrite length_app; simpl; lia). simpl.
    subst i. rewrite insert_after_prefix.
    rewrite (app_cons_shift pre "C" (exact_marks rest cells)).
    apply IH; [rewrite length_app; simpl; lia | lia].
  - rewrite (app_cons_shift pre m cells), (app_cons_shift pre m (exact_marks rest cells)).
    apply IH; [rewrite length_app; simpl; lia | lia].
Qed.

Lemma second_pass_run (guess target : Word) (i : nat) (pre cells : Pattern)
    (counts : gmap ascii nat) :
  length pre = i → length guess ≤ length cells →
  ∃ counts', second_pass i guess target (pre ++ cells) counts
             = Ok (pre ++ budget_marks guess target cells counts, counts').
Proof.
  revert i pre cells counts.
  induction guess as [|g rest IH]; intros i pre cells counts Hi Hlen; [by eexists|].
  destruct cells as [|m cells]; simpl in Hlen; [lia|].
  simpl. unfold list_get. subst i. rewrite list_lookup_middle by done. simpl.
  case_decide as Hm.
  - rewrite (app_cons_shift pre m cells), (app_cons_shift pre m (budget_marks _ _ _ _)).
    apply IH; [rewrite length_app; simpl; lia | lia].
  - case_decide as Hb.
    + rewrite list_set_lt by (rewrite length_app; simpl; lia). simpl.
      rewrite insert_after_prefix.
      rewrite (app_cons_shift pre "P" (budget_marks _ _ _ _)).
      apply IH; [rewrite length_app; simpl; lia | lia].
    + rewrite list_set_lt by (rewrite length_app; simpl; lia). simpl.
      rewrite insert_after_prefix.
      rewrite (app_cons_shift pre "A" (budget_marks _ _ _ _)).
      apply IH; [rewrite length_app; simpl; lia | lia].
Qed.

Lemma exact_marks_length (pairs : list (ascii * ascii)) (cells : Pattern) :
  length (exact_marks pairs cells) = length cells.
Proof.
  revert cells. induction pairs as [|[g t] rest IH]; intros [|m cells]; simpl; auto.
Qed.

Lemma budget_marks_length (guess target : Word) (cells : Pattern) (counts : gmap ascii nat) :
  length (budget_marks guess target cells counts) = length cells.
Proof.
  revert cells counts. induction guess as [|g rest IH]; intros [|m cells] counts; simpl; auto.
  repeat case_decide; simpl; auto.
Qed.

(** [get_pattern] returns for every guess of at most five letters, and its
    result is the composition of the two loops on five empty cells. *)
Lemma get_pattern_run (guess target : Word) :
  length guess ≤ 5 →
  get_pattern guess target
  = Ok (budget_marks guess target
          (exact_marks (zip guess target) (replicate 5 EmptyString))
          (exact_counts (zip guess target) ∅)).
Proof.
  intros Hlen. unfold get_pattern.
  rewrite (first_pass_run (zip guess target) 0 [] (replicate 5 EmptyString) ∅ eq_refl).
  2:{ rewrite length_zip, length_replicate. lia. }
  simpl.
  destruct (second_pass_run guess target 0 []
              (exact_marks (zip guess target) (replicate 5 EmptyString))
              (exact_counts (zip guess target) ∅) eq_refl) as [counts' Hrun].
  { rewrite exact_marks_length, length_replicate. done. }
  simpl in Hrun. rewrite Hrun. done.
Qed.

(** A guess of more than five letters overruns the five cells. *)
Example get_pattern_six_letters :
  get_pattern (word_of "ABCDEF") (word_of "ABCDEF") = Raise IndexError.
Proof. vm_compute. reflexivity. Qed.

(** *** Counting marks and letters *)

Lemma marked_cons (c : ascii) (m : string) (g : ascii) (guess : Word) (x : string)
    (pattern : Pattern) :
  marked c m (g :: guess) (x :: pattern)
  = (if decide ((g, x) = (c, m)) then 1 else 0) + marked c m guess pattern.
Proof. unfold marked. simpl. rewrite filter_cons. case_decide; done. Qed.

Lemma marked_nil_r (c : ascii) (m : string) (guess : Word) : marked c m guess [] = 0.
Proof. by destruct guess. Qed.

Lemma matched_cons (c g t : ascii) (pairs : list (ascii * ascii)) :
  matched c ((g, t) :: pairs)
  = (if decide (g = t ∧ t = c) then 1 else 0) + matched c pairs.
Proof. unfold matched. rewrite filter_cons. simpl. case_decide; done. Qed.

Lemma unmatched_cons (c g : ascii) (guess : Word) (x : string) (cells : Pattern) :
  unmatched c (g :: guess) (x :: cells)
  = (if decide (g = c ∧ x ≠ "C") then 1 else 0) + unmatched c guess cells.
Proof. unfold unmatched. simpl. rewrite filter_cons. simpl. case_decide; done. Qed.

Lemma unmatched_nil_r (c : ascii) (guess : Word) : unmatched c guess [] = 0.
Proof. by destruct guess. Qed.

Lemma total_in_target_cons (t : ascii) (target : Word) (c : ascii) :
  total_in_target (t :: target) c
  = (if decide (t = c) then 1 else 0) + total_in_target target c.
Proof. unfold total_in_target. rewrite filter_cons. case_decide; done. Qed.

Lemma total_in_target_pos (target : Word) (c : ascii) :
  0 < total_in_target target c ↔ c ∈ target.
Proof.
  induction target as [|t target IH].
  - split; [unfold total_in_target; simpl; lia | by intros ?%elem_of_nil].
  - rewrite total_in_target_cons, elem_of_cons. case_decide; subst.
    + split; [by left | lia].
    + simpl. rewrite IH. split; [by right | by intros [->|]].
Qed.

Lemma marked_pos (c : ascii) (m : string) (guess : Word) (pattern : Pattern) :
  0 < marked c m guess pattern →
  ∃ j, guess !! j = Some c ∧ pattern !! j = Some m.
Proof.
  revert pattern. induction guess as [|g guess IH]; intros [|x pattern]; simpl;
    try (unfold marked; simpl; lia).
  rewrite marked_cons. case_decide as Heq.
  - injection Heq as -> ->. intros _. by exists 0.
  - simpl. intros Hpos. destruct (IH _ Hpos) as (j & Hg & Hp). by exists (S j).
Qed.

(** *** Correct marks *)

Lemma exact_marks_C (guess target : Word) (n i : nat) :
  exact_marks (zip guess target) (replicate n EmptyString) !! i = Some "C"
  ↔ i < n ∧ ∃ x, guess !! i = Some x ∧ target !! i = Some x.
Proof.
  revert target n i. induction guess as [|g guess IH]; intros target n i.
  - simpl. split.
    + intros [[=] _]%lookup_replicate.
    + by intros [_ (x & [=] & _)].
  - destruct target as [|t target].
    + simpl. split.
      * intros [[=] _]%lookup_replicate.
      * by intros [_ (x & _ & [=])].
    + destruct n as [|n]; simpl.
      * split; [done | lia].
      * destruct i as [|i]; simpl.
        -- split.
           ++ case_decide; [subst; intros _; split; [lia | by exists t] | done].
           ++ intros [_ (x & [= ->] & [= ->])]. by rewrite decide_True.
        -- rewrite IH. split; intros [? ?]; (split; [lia | done]).
Qed.

Lemma budget_marks_C (guess target : Word) (cells : Pattern) (counts : gmap ascii nat)
    (i : nat) :
  budget_marks guess target cells counts !! i = Some "C" ↔ cells !! i = Some "C".
Proof.
  revert cells counts i. induction guess as [|g guess IH]; intros cells counts i; [done|].
  destruct cells as [|m cells]; [done|]. simpl.
  case_decide as Hm.
  - destruct i; simpl; [done | apply IH].
  - case_decide.
    + destruct i; simpl; [|apply IH]. split; intros [=]. by subst.
    + destruct i; simpl; [|apply IH]. split; intros [=]. by subst.
Qed.

(** *** Present marks *)

Lemma exact_marks_Forall (P : string → Prop) (pairs : list (ascii * ascii)) (cells : Pattern) :
  P "C" → Forall P cells → Forall P (exact_marks pairs cells).
Proof.
  intros HC. revert cells. induction pairs as [|[g t] rest IH]; intros cells Hcells;
    [by destruct cells|].
  destruct Hcells as [|m cells Hm Hcells]; simpl; [done|].
  constructor; [by case_decide | by apply IH].
Qed.

Lemma budget_marks_P (guess target : Word) (cells : Pattern) (counts : gmap ascii nat)
    (i : nat) :
  Forall (λ m, m ≠ "P") cells →
  budget_marks guess target cells counts !! i = Some "P" →
  ∃ x, guess !! i = Some x ∧ x ∈ target.
Proof.
  revert cells counts i. induction guess as [|g guess IH]; intros cells counts i Hcells.
  - simpl. intros Hi. apply list_elem_of_lookup_2 in Hi.
    rewrite Forall_forall in Hcells. by destruct (Hcells _ Hi).
  - destruct Hcells as [|m cells Hm Hcells]; [done|]. simpl.
    case_decide as HmC.
    + destruct i; simpl; [by intros [= ->] | by apply IH].
    + case_decide as Hb.
      * destruct i; simpl; [|by apply IH].
        intros _. exists g. split; [done|]. apply total_in_target_pos. lia.
      * destruct i; simpl; [done | by apply IH].
Qed.

(** *** The budget of a letter *)

Lemma exact_counts_matched (pairs : list (ascii * ascii)) (counts : gmap ascii nat)
    (c : ascii) :
  counts_get (exact_counts pairs counts) c = counts_get counts c + matched c pairs.
Proof.
  revert counts. induction pairs as [|[g t] rest IH]; intros counts.
  - unfold matched. simpl. lia.
  - simpl. rewrite IH, matched_cons. case_decide as Hgt.
    + rewrite counts_get_incr. repeat case_decide; try lia; tauto.
    + rewrite decide_False by tauto. lia.
Qed.

Lemma matched_le_target (guess target : Word) (c : ascii) :
  matched c (zip guess target) ≤ total_in_target target c.
Proof.
  revert target. induction guess as [|g guess IH]; intros [|t target]; simpl;
    try (unfold matched; simpl; lia).
  rewrite matched_cons, total_in_target_cons. specialize (IH target).
  repeat case_decide; try lia. tauto.
Qed.

Lemma marked_C_replicate (guess : Word) (n : nat) (c : ascii) :
  marked c "C" guess (replicate n EmptyString) = 0.
Proof.
  revert n. induction guess as [|g guess IH]; intros [|n]; simpl; try done.
  rewrite marked_cons, decide_False by congruence. apply IH.
Qed.

Lemma exact_marks_marked_C (guess target : Word) (n : nat) (c : ascii) :
  length guess ≤ n →
  marked c "C" guess (exact_marks (zip guess target) (replicate n EmptyString))
  = matched c (zip guess target).
Proof.
  revert target n. induction guess as [|g guess IH]; intros target n Hlen; [done|].
  destruct target as [|t target].
  - simpl. apply marked_C_replicate.
  - destruct n as [|n]; simpl in *; [lia|].
    rewrite marked_cons, matched_cons, IH by lia. f_equal.
    destruct (decide (g = t)) as [->|Hgt].
    + destruct (decide (t = c)) as [->|Htc].
      * by rewrite !decide_True.
      * rewrite !decide_False; [done | tauto | congruence].
    + rewrite !decide_False; [done | tauto | congruence].
Qed.

Lemma budget_marks_marked_C (guess target : Word) (cells : Pattern)
    (counts : gmap ascii nat) (c : ascii) :
  marked c "C" guess (budget_marks guess target cells counts) = marked c "C" guess cells.
Proof.
  revert cells counts. induction guess as [|g guess IH]; intros cells counts; [done|].
  destruct cells as [|m cells]; [done|]. simpl.
  case_decide as Hm; [by rewrite !marked_cons, IH|].
  case_decide; rewrite !marked_cons, IH; f_equal;
    rewrite !decide_False; congruence.
Qed.

Lemma budget_marks_marked_P (guess target : Word) (cells : Pattern)
    (counts : gmap ascii nat) (c : ascii) :
  Forall (λ m, m ≠ "P") cells →
  marked c "P" guess (budget_marks guess target cells counts)
  = (total_in_target target c - counts_get counts c) `min` unmatched c guess cells.
Proof.
  revert cells counts. induction guess as [|g guess IH]; intros cells counts Hcells.
  - simpl. destruct cells; unfold marked, unmatched; simpl; lia.
  - destruct Hcells as [|m cells Hm Hcells].
    { rewrite unmatched_nil_r. simpl. rewrite marked_nil_r. lia. }
    simpl. rewrite unmatched_cons.
    case_decide as HmC.
    + rewrite marked_cons, IH by done.
      rewrite (decide_False (P := (g, m) = (c, "P"))) by congruence.
      rewrite (decide_False (P := g = c ∧ m ≠ "C")) by tauto. done.
    + case_decide as Hb; rewrite marked_cons, IH by done.
      * rewrite counts_get_incr.
        destruct (decide (g = c)) as [->|Hgc].
        -- rewrite !decide_True by done. lia.
        -- rewrite !decide_False by (congruence || tauto). lia.
      * destruct (decide (g = c)) as [->|Hgc].
        -- rewrite (decide_False (P := (c, "A") = (c, "P"))) by congruence.
           rewrite decide_True by done. lia.
        -- rewrite !decide_False by (congruence || tauto). lia.
Qed.

Lemma budget_marks_marked_A (guess target : Word) (cells : Pattern)
    (counts : gmap ascii nat) (c : ascii) :
  Forall (λ m, m ≠ "A") cells →
  marked c "A" guess (budget_marks guess target cells counts)
  = unmatched c guess cells - (total_in_target target c - counts_get counts c).
Proof.
  revert cells counts. induction guess as [|g guess IH]; intros cells counts Hcells.
  - simpl. destruct cells; unfold marked, unmatched; simpl; lia.
  - destruct Hcells as [|m cells Hm Hcells].
    { rewrite unmatched_nil_r. simpl. rewrite marked_nil_r. lia. }
    simpl. rewrite unmatched_cons.
    case_decide as HmC.
    + rewrite marked_cons, IH by done.
      rewrite (decide_False (P := (g, m) = (c, "A"))) by congruence.
      rewrite (decide_False (P := g = c ∧ m ≠ "C")) by tauto. done.
    + case_decide as Hb; rewrite marked_cons, IH by done.
      * rewrite counts_get_incr.
        destruct (decide (g = c)) as [->|Hgc].
        -- rewrite (decide_False (P := (c, "P") = (c, "A"))) by congruence.
           rewrite !decide_True by done. lia.
        -- rewrite !decide_False by (congruence || tauto). lia.
      * destruct (decide (g = c)) as [->|Hgc].
        -- rewrite !decide_True by done. lia.
        -- rewrite !decide_False by (congruence || tauto). lia.
Qed.

Lemma unmatched_plus_marked_C (guess : Word) (cells : Pattern) (c : ascii) :
  length guess ≤ length cells →
  unmatched c guess cells + marked c "C" guess cells = total_in_target guess c.
Proof.
  revert cells. induction guess as [|g guess IH]; intros cells Hlen.
  - destruct cells; done.
  - destruct cells as [|m cells]; simpl in Hlen; [lia|].
    rewrite unmatched_cons, marked_cons, total_in_target_cons.
    specialize (IH cells ltac:(lia)).
    destruct (decide (g = c)) as [->|Hgc].
    + destruct (decide (m = "C")) as [->|HmC].
      * rewrite (decide_False (P := c = c ∧ "C" ≠ "C")) by tauto.
        rewrite decide_True by done. lia.
      * rewrite (decide_True (P := c = c ∧ m ≠ "C")) by tauto.
        rewrite decide_False by congruence. lia.
    + rewrite !decide_False by (congruence || tauto). lia.
Qed.

(** *** What a returned pattern looks like *)

Lemma first_pass_length (pairs : list (ascii * ascii)) (i : nat) (pattern pattern' : Pattern)
    (counts counts' : gmap ascii nat) :
  first_pass i pairs pattern counts = Ok (pattern', counts') →
  length pattern' = length pattern.
Proof.
  revert i pattern counts. induction pairs as [|[g t] rest IH]; intros i pattern counts; simpl.
  - by intros [= <- _].
  - case_decide; [|apply IH].
    destruct (list_set pattern i "C") as [p1|e] eqn:Hset; simpl; [|done].
    apply list_set_Ok in Hset as [_ ->]. intros Hrun%IH.
    by rewrite length_insert in Hrun.
Qed.

Lemma second_pass_fits (guess target : Word) (i : nat) (pattern : Pattern)
    (counts : gmap ascii nat) (r : Pattern * gmap ascii nat) :
  second_pass i guess target pattern counts = Ok r → length guess ≤ length pattern - i.
Proof.
  revert i pattern counts. induction guess as [|g rest IH]; intros i pattern counts; simpl.
  - intros [= <-]. lia.
  - destruct (list_get pattern i) as [m|e] eqn:Hget; simpl; [|done].
    apply list_get_Ok, lookup_lt_Some in Hget.
    case_decide; [intros Hrun%IH; lia|].
    case_decide.
    + rewrite list_set_lt by done. simpl. intros Hrun%IH.
      rewrite length_insert in Hrun. lia.
    + rewrite list_set_lt by done. simpl. intros Hrun%IH.
      rewrite length_insert in Hrun. lia.
Qed.

(** [get_pattern] returns exactly for the guesses of at most five letters. *)
Lemma get_pattern_Ok (guess target : Word) (pattern : Pattern) :
  get_pattern guess target = Ok pattern →
  length guess ≤ 5
  ∧ pattern = budget_marks guess target
                (exact_marks (zip guess target) (replicate 5 EmptyString))
                (exact_counts (zip guess target) ∅).
Proof.
  intros Hrun.
  assert (length guess ≤ 5) as Hlen.
  { unfold get_pattern in Hrun.
    destruct (first_pass 0 (zip guess target) (replicate 5 EmptyString) ∅)
      as [[p1 c1]|e] eqn:H1; simpl in Hrun; [|done].
    apply first_pass_length in H1. rewrite length_replicate in H1.
    destruct (second_pass 0 guess target p1 c1) as [[p2 c2]|e] eqn:H2; simpl in Hrun; [|done].
    apply second_pass_fits in H2. lia. }
  split; [done|]. rewrite get_pattern_run in Hrun by done. by injection Hrun.
Qed.

Lemma get_pattern_length (guess target : Word) (pattern : Pattern) :
  get_pattern guess target = Ok pattern → length pattern = 5.
Proof.
  intros [_ ->]%get_pattern_Ok.
  by rewrite budget_marks_length, exact_marks_length, length_replicate.
Qed.

Lemma get_pattern_C (guess target : Word) (pattern : Pattern) (i : nat) :
  get_pattern guess target = Ok pattern →
  pattern !! i = Some "C" ↔ ∃ x, guess !! i = Some x ∧ target !! i = Some x.
Proof.
  intros [Hlen ->]%get_pattern_Ok. rewrite budget_marks_C, exact_marks_C.
  split; [tauto|]. intros (x & Hg & Ht). split; [|by exists x].
  apply lookup_lt_Some in Hg. lia.
Qed.

Lemma get_pattern_P (guess target : Word) (pattern : Pattern) (i : nat) :
  get_pattern guess target = Ok pattern →
  pattern !! i = Some "P" → ∃ x, guess !! i = Some x ∧ x ∈ target.
Proof.
  intros [Hlen ->]%get_pattern_Ok. apply budget_marks_P.
  apply exact_marks_Forall; [done|]. by apply Forall_replicate.
Qed.

Lemma get_pattern_budget (guess target : Word) (pattern : Pattern) (c : ascii) :
  get_pattern guess target = Ok pattern →
  marked c "C" guess pattern + marked c "P" guess pattern
  = total_in_target guess c `min` total_in_target target c
  ∧ marked c "A" guess pattern = total_in_target guess c - total_in_target target c.
Proof.
  intros [Hlen ->]%get_pattern_Ok.
  set (cells := exact_marks (zip guess target) (replicate 5 EmptyString)).
  rewrite budget_marks_marked_C.
  rewrite budget_marks_marked_P
    by (apply exact_marks_Forall; [done | by apply Forall_replicate]).
  rewrite budget_marks_marked_A
    by (apply exact_marks_Forall; [done | by apply Forall_replicate]).
  rewrite exact_counts_matched.
  pose proof (unmatched_plus_marked_C guess cells c) as Hsum.
  unfold cells in *.
  rewrite exact_marks_length, length_replicate in Hsum. specialize (Hsum Hlen).
  rewrite exact_marks_marked_C in * by done.
  pose proof (matched_le_target guess target c) as Hle.
  rewrite !counts_get_empty. lia.
Qed.

(** A letter of the target marked Absent somewhere in the guess is marked
    Correct or Present at another position of the guess. *)
Lemma get_pattern_A_covered (guess target : Word) (pattern : Pattern) (i : nat) (x : ascii) :
  get_pattern guess target = Ok pattern →
  guess !! i = Some x → x ∈ target →
  ∃ j, guess !! j = Some x ∧ (pattern !! j = Some "C" ∨ pattern !! j = Some "P").
Proof.
  intros Hrun Hg Ht.
  destruct (get_pattern_budget guess target pattern x Hrun) as [Hcp _].
  apply list_elem_of_lookup_2, total_in_target_pos in Hg.
  apply total_in_target_pos in Ht.
  destruct (decide (0 < marked x "C" guess pattern)) as [HC|HC].
  - destruct (marked_pos _ _ _ _ HC) as (j & ? & ?). exists j. tauto.
  - assert (0 < marked x "P" guess pattern) as HP by lia.
    destruct (marked_pos _ _ _ _ HP) as (j & ? & ?). exists j. tauto.
Qed.

(** C2: for every guess of at most five letters (the pattern has five
    cells) and every target, in particular for two words of equal length,
    [get_pattern] returns a pattern that has a Correct mark at exactly the
    positions where guess and target hold the same letter; for each letter
    the Correct and Present marks on its occurrences in the guess number at
    most its occurrences in the target, exactly the smaller of its numbers
    of occurrences in guess and target, and the occurrences beyond that are
    the ones marked Absent. *)
Theorem get_pattern_marks (guess target : Word) :
  length guess = length target →
  length guess ≤ 5 →
  ∃ pattern,
    get_pattern guess target = Ok pattern
    ∧ (∀ i, pattern !! i = Some "C" ↔ ∃ x, guess !! i = Some x ∧ target !! i = Some x)
    ∧ (∀ c, marked c "C" guess pattern + marked c "P" guess pattern
            ≤ total_in_target target c)
    ∧ (∀ c, marked c "C" guess pattern + marked c "P" guess pattern
            = total_in_target guess c `min` total_in_target target c)
    ∧ (∀ c, marked c "A" guess pattern
            = total_in_target guess c - total_in_target target c).
Proof.
  intros _ Hlen. eexists. split; [by apply get_pattern_run|].
  pose proof (get_pattern_run guess target Hlen) as Hrun.
  split; [intros i; by apply get_pattern_C|].
  split; [|split]; intros c;
    destruct (get_pattern_budget guess target _ c Hrun) as [Hcp Ha]; lia.
Qed.

Lemma get_pattern_marks_witness :
  ∃ pattern,
    get_pattern (word_of "SPEED") (word_of "ERASE") = Ok pattern
    ∧ (∀ i, pattern !! i = Some "C"
            ↔ ∃ x, word_of "SPEED" !! i = Some x ∧ word_of "ERASE" !! i = Some x)
    ∧ (∀ c, marked c "C" (word_of "SPEED") pattern + marked c "P" (word_of "SPEED") pattern
            ≤ total_in_target (word_of "ERASE") c)
    ∧ (∀ c, marked c "C" (word_of "SPEED") pattern + marked c "P" (word_of "SPEED") pattern
            = total_in_target (word_of "SPEED") c `min` total_in_target (word_of "ERASE") c)
    ∧ (∀ c, marked c "A" (word_of "SPEED") pattern
            = total_in_target (word_of "SPEED") c - total_in_target (word_of "ERASE") c).
Proof.
  apply (get_pattern_marks (word_of "SPEED") (word_of "ERASE")).
  - reflexivity.
  - vm_compute. lia.
Defined.

(** A word guessed against itself is Correct at all five positions. *)
Theorem get_pattern_same (g : Word) :
  length g = 5 → get_pattern g g = Ok (replicate 5 "C").
Proof.
  intros Hlen.
  destruct (get_pattern g g) as [pattern|e] eqn:Hrun.
  2:{ rewrite get_pattern_run in Hrun by lia. discriminate. }
  f_equal.
  pose proof (get_pattern_length g g pattern Hrun) as Hplen.
  apply list_eq. intros i.
  destruct (decide (i < 5)) as [Hi|Hi].
  - rewrite (proj2 (lookup_replicate _ _ _ _) (conj eq_refl Hi)).
    apply (get_pattern_C g g pattern i Hrun).
    destruct (lookup_lt_is_Some_2 g i ltac:(lia)) as [x Hx]. by exists x.
  - rewrite !lookup_ge_None_2; [done | rewrite length_replicate; lia | lia].
Qed.

Lemma get_pattern_same_witness :
  get_pattern (word_of "SLATE") (word_of "SLATE") = Ok (replicate 5 "C").
Proof. apply (get_pattern_same (word_of "SLATE")). reflexivity. Defined.

(** ** The filtering predicate *)

Lemma fixed_positions_match_total (cs : list ascii) (word : Word) (i : nat) :
  i + length cs ≤ length word → ∃ b, fixed_positions_match i cs word = Ok b.
Proof.
  revert i. induction cs as [|c cs IH]; intros i Hlen; simpl in *; [by eexists|].
  case_decide; [|apply IH; lia].
  destruct (list_get_lt word i ltac:(lia)) as (x & -> & _). simpl.
  case_decide; [by eexists | apply IH; lia].
Qed.

Lemma fixed_positions_match_true (cs : list ascii) (word : Word) (i : nat) :
  fixed_positions_match i cs word = Ok true
  ↔ ∀ k c, cs !! k = Some c → c ≠ "?"%char → word !! (i + k) = Some c.
Proof.
  revert i. induction cs as [|c cs IH]; intros i; simpl.
  - split; [by intros _ k c ? | done].
  - case_decide as Hq.
    + destruct (list_get word i) as [x|e] eqn:Hget; simpl.
      * apply list_get_Ok in Hget. case_decide as Hx.
        -- split; [done|]. intros Hall.
           specialize (Hall 0 c eq_refl Hq). rewrite Nat.add_0_r in Hall. congruence.
        -- subst x. rewrite IH. split.
           ++ intros Hall [|k] c'; simpl.
              ** intros [= <-] _. by rewrite Nat.add_0_r.
              ** intros Hk Hc'. rewrite Nat.add_succ_r. by apply (Hall k).
           ++ intros Hall k c' Hk Hc'. specialize (Hall (S k) c' Hk Hc').
              by rewrite Nat.add_succ_r in Hall.
      * split; [done|]. intros Hall.
        specialize (Hall 0 c eq_refl Hq). rewrite Nat.add_0_r in Hall.
        unfold list_get in Hget. by rewrite Hall in Hget.
    + subst c. rewrite IH. split.
      * intros Hall [|k] c'; simpl.
        -- by intros [= <-] ?.
        -- intros Hk Hc'. rewrite Nat.add_succ_r. by apply (Hall k).
      * intros Hall k c' Hk Hc'. specialize (Hall (S k) c' Hk Hc').
        by rewrite Nat.add_succ_r in Hall.
Qed.

Lemma some_present_missing_false (st : State) (word : Word) :
  some_present_missing st word = false ↔ ∀ p, p ∈ present st → p ∈ word.
Proof.
  unfold some_present_missing. rewrite <- not_true_iff_false, existsb_exists. split.
  - intros Hno p Hp. destruct (decide (p ∈ word)) as [|Hnot]; [done|].
    destruct Hno. exists p. split.
    + by apply list_elem_of_In, elem_of_elements.
    + by apply bool_decide_eq_true.
  - intros Hall (p & Hp & Hmiss). apply bool_decide_eq_true in Hmiss.
    apply list_elem_of_In, elem_of_elements in Hp. by destruct Hmiss; apply Hall.
Qed.

Lemma some_absent_occurs_false (st : State) (word : Word) :
  some_absent_occurs st word = false
  ↔ ∀ a, a ∈ absent st → a ∉ correct st → a ∉ present st → a ∉ word.
Proof.
  unfold some_absent_occurs. rewrite <- not_true_iff_false, existsb_exists. split.
  - intros Hno a Ha Hc Hp Hin. destruct Hno. exists a. split.
    + apply list_elem_of_In, list_elem_of_filter. split; [done|].
      by apply elem_of_elements.
    + by apply bool_decide_eq_true.
  - intros Hall (a & Ha & Hin). apply bool_decide_eq_true in Hin.
    apply list_elem_of_In, list_elem_of_filter in Ha as [[Hc Hp] Ha].
    apply elem_of_elements in Ha. by apply (Hall a).
Qed.

Lemma no_present_at_fixed_total (st : State) (letters : Word) (i : nat) :
  i + length letters ≤ length (correct st) → ∃ b, no_present_at_fixed i letters st = Ok b.
Proof.
  revert i. induction letters as [|letter rest IH]; intros i Hlen; simpl in *; [by eexists|].
  case_decide; [|apply IH; lia].
  destruct (list_get_lt (correct st) i ltac:(lia)) as (c & -> & _). simpl.
  case_decide; [by eexists | apply IH; lia].
Qed.

(** [is_word_valid] cannot raise on a word as long as the [correct] list. *)
Lemma is_word_valid_total (st : State) (word : Word) :
  length word = length (correct st) → ∃ b, is_word_valid st word = Ok b.
Proof.
  intros Hlen. unfold is_word_valid.
  destruct (fixed_positions_match_total (correct st) word 0 ltac:(simpl; lia)) as [b1 ->].
  simpl. destruct b1; simpl; [|by eexists].
  destruct (some_present_missing st word); [by eexists|].
  destruct (some_absent_occurs st word); [by eexists|].
  destruct (no_present_at_fixed_total st word 0 ltac:(simpl; lia)) as [b4 ->].
  simpl. destruct b4; by eexists.
Qed.

Lemma is_word_valid_satisfies (st : State) (word : Word) :
  is_word_valid st word = Ok true → satisfies st word.
Proof.
  unfold is_word_valid, satisfies.
  destruct (fixed_positions_match 0 (correct st) word) as [[]|e] eqn:H1; simpl; try done.
  destruct (some_present_missing st word) eqn:H2; [done|].
  destruct (some_absent_occurs st word) eqn:H3; [done|].
  intros _. split; [|split].
  - intros i c Hi Hc. by apply (proj1 (fixed_positions_match_true _ _ 0) H1 i c).
  - by apply some_present_missing_false.
  - by apply some_absent_occurs_false.
Qed.

Lemma satisfies_is_word_valid (st : State) (word : Word) :
  present_not_fixed st → length word ≤ length (correct st) →
  satisfies st word → is_word_valid st word = Ok true.
Proof.
  intros Hinv Hlen (H1 & H2 & H3). unfold is_word_valid.
  rewrite (proj2 (fixed_positions_match_true (correct st) word 0)) by done. simpl.
  rewrite (proj2 (some_present_missing_false st word)) by done.
  rewrite (proj2 (some_absent_occurs_false st word)) by done.
  by rewrite no_present_at_fixed_passes.
Qed.

Lemma no_present_at_fixed_set_possible (st : State) (words : list Word) (letters : Word)
    (i : nat) :
  no_present_at_fixed i letters (set_possible words st) = no_present_at_fixed i letters st.
Proof.
  revert i. induction letters as [|letter rest IH]; intros i; simpl; [done|].
  by rewrite !IH.
Qed.

(** [is_word_valid] does not read the [possible] list. *)
Lemma is_word_valid_set_possible (st : State) (words : list Word) (word : Word) :
  is_word_valid (set_possible words st) word = is_word_valid st word.
Proof.
  unfold is_word_valid. by rewrite no_present_at_fixed_set_possible.
Qed.

Lemma filter_possible_total (st : State) (words : list Word) :
  Forall (λ w, length w = length (correct st)) words →
  ∃ new_possible,
    filter_possible st words = Ok new_possible
    ∧ ∀ w, w ∈ new_possible ↔ w ∈ words ∧ is_word_valid st w = Ok true.
Proof.
  induction 1 as [|w rest Hw Hrest (np & Hnp & Hmem)]; simpl.
  - exists []. split; [done|]. intros w. split; [by intros ?%elem_of_nil | by intros [?%elem_of_nil _]].
  - destruct (is_word_valid_total st w Hw) as [b Hb]. rewrite Hb, Hnp. simpl.
    eexists. split; [done|]. intros w'. destruct b.
    + rewrite !elem_of_cons, Hmem. split.
      * intros [->|[? ?]]; [by split; [left|] | by split; [right|]].
      * intros [[->|?] ?]; [by left | by right].
    + rewrite elem_of_cons, Hmem. split.
      * intros [? ?]. by split; [right|].
      * intros [[->|?] ?]; [congruence | done].
Qed.

(** ** The feedback loop of [update_state] *)

(** One iteration that does not raise, by the colour it reads. *)
Lemma apply_mark_inv (i : nat) (letter : ascii) (color : string) (st st' : State) :
  apply_mark i letter color st = (Ok (), st') →
  possible st' = possible st
  ∧ ((color = "C" ∧ i < length (correct st)
      ∧ correct st' = <[i:=letter]> (correct st)
      ∧ present st' = present st ∖ {[letter]} ∧ absent st' = absent st)
     ∨ (color = "P" ∧ correct st' = correct st
        ∧ present st' = present st ∪ {[letter]} ∧ absent st' = absent st)
     ∨ (color = "A" ∧ correct st' = correct st
        ∧ present st' = present st ∧ absent st' = absent st ∪ {[letter]})
     ∨ (color ≠ "C" ∧ color ≠ "P" ∧ color ≠ "A" ∧ correct st' = correct st
        ∧ present st' = present st ∧ absent st' = absent st)).
Proof.
  unfold apply_mark. case_decide as HC.
  - destruct (list_set (correct st) i letter) as [c'|e] eqn:Hset; [|done].
    apply list_set_Ok in Hset as [Hi ->]. simpl.
    case_decide as Hp; intros [= <-]; simpl; (split; [done|]); left;
      repeat split; try done.
    apply set_eq. intros x. rewrite elem_of_difference, elem_of_singleton.
    split; [|tauto]. intros Hx. split; [done|]. by intros ->.
  - case_decide as HP; [intros [= <-]; simpl; split; [done|]; right; left; by subst|].
    case_decide as HA; intros [= <-]; simpl; (split; [done|]); right; right;
      [left; by subst | right; done].
Qed.

Lemma apply_feedback_cons (i : nat) (letter : ascii) (color : string)
    (rest : list (ascii * string)) (st st1 : State) :
  apply_feedback i ((letter, color) :: rest) st = (Ok (), st1) →
  ∃ st', apply_mark i letter color st = (Ok (), st')
         ∧ apply_feedback (S i) rest st' = (Ok (), st1).
Proof.
  simpl. unfold bind.
  destruct (apply_mark i letter color st) as [[[]|e] st']; [|done].
  intros Hrest. by exists st'.
Qed.

(** The [correct] list after the loop: a cell holds the letter of the
    Correct mark at its position, when there is one, and is untouched
    otherwise. *)
Lemma apply_feedback_correct (feedback : list (ascii * string)) (i : nat) (st st1 : State)
    (k : nat) :
  apply_feedback i feedback st = (Ok (), st1) →
  (∃ j l, k = i + j ∧ feedback !! j = Some (l, "C") ∧ correct st1 !! k = Some l)
  ∨ ((∀ j l, k = i + j → feedback !! j ≠ Some (l, "C"))
     ∧ correct st1 !! k = correct st !! k).
Proof.
  revert i st. induction feedback as [|[letter color] rest IH]; intros i st.
  - simpl. intros [= <-]. right. split; [by intros j l _|done].
  - intros (st' & Hmark & Hrest)%apply_feedback_cons.
    apply apply_mark_inv in Hmark as [_ Hmark].
    destruct (IH (S i) st' Hrest) as [(j & l & -> & Hj & Hl)|[Hnone Hsame]].
    { left. exists (S j), l. split; [lia|]. done. }
    destruct (decide (k = i ∧ color = "C")) as [[-> ->]|Hne].
    + left. exists 0, letter. split; [lia|]. split; [done|]. rewrite Hsame.
      destruct Hmark as [(_ & Hi & -> & _)|[(? & _)|[(? & _)|(? & _)]]]; try done.
      by apply list_lookup_insert_eq.
    + right. split.
      * intros [|j] l Hk; simpl.
        -- intros [= -> ->]. apply Hne. split; [lia|done].
        -- apply Hnone. lia.
      * rewrite Hsame.
        destruct Hmark as [(-> & Hi & -> & _)|[(_ & -> & _)|[(_ & -> & _)|(_ & _ & _ & -> & _)]]];
          try done.
        apply list_lookup_insert_ne. intros ->. by apply Hne.
Qed.

Lemma apply_feedback_present_origin (feedback : list (ascii * string)) (i : nat)
    (st st1 : State) (p : ascii) :
  apply_feedback i feedback st = (Ok (), st1) →
  p ∈ present st1 → p ∈ present st ∨ ∃ j, feedback !! j = Some (p, "P").
Proof.
  revert i st. induction feedback as [|[letter color] rest IH]; intros i st.
  - simpl. intros [= <-]. by left.
  - intros (st' & Hmark & Hrest)%apply_feedback_cons Hp.
    apply apply_mark_inv in Hmark as [_ Hmark].
    destruct (IH (S i) st' Hrest Hp) as [Hp'|[j Hj]]; [|right; by exists (S j)].
    destruct Hmark as [(_ & _ & _ & Hpr & _)|[(-> & _ & Hpr & _)|[(_ & _ & Hpr & _)|(_ & _ & _ & _ & Hpr & _)]]];
      rewrite Hpr in Hp'.
    + left. by apply elem_of_difference in Hp' as [? _].
    + apply elem_of_union in Hp' as [?|Heq%elem_of_singleton]; [by left|].
      subst p. right. by exists 0.
    + by left.
    + by left.
Qed.

Lemma apply_feedback_present_kept (feedback : list (ascii * string)) (i : nat)
    (st st1 : State) (p : ascii) :
  apply_feedback i feedback st = (Ok (), st1) →
  p ∈ present st ∨ (∃ j, feedback !! j = Some (p, "P")) →
  p ∈ present st1 ∨ ∃ j, feedback !! j = Some (p, "C").
Proof.
  revert i st. induction feedback as [|[letter color] rest IH]; intros i st.
  - simpl. intros [= <-] [?|[j [=]]]. by left.
  - intros (st' & Hmark & Hrest)%apply_feedback_cons Hp.
    apply apply_mark_inv in Hmark as [_ Hmark].
    assert (p ∈ present st' ∨ (∃ j, rest !! j = Some (p, "P"))
            ∨ (letter, color) = (p, "C")) as Hstep.
    { destruct Hp as [Hp|[[|j] Hj]]; [|simpl in Hj..].
      - destruct Hmark as [(-> & _ & _ & Hpr & _)|[(_ & _ & Hpr & _)|[(_ & _ & Hpr & _)|(_ & _ & _ & _ & Hpr & _)]]];
          rewrite Hpr.
        + destruct (decide (p = letter)) as [->|Hne]; [by right; right|].
          left. apply elem_of_difference. split; [done|].
          by intros ?%elem_of_singleton.
        + left. apply elem_of_union. by left.
        + by left.
        + by left.
      - injection Hj as -> ->.
        destruct Hmark as [(? & _)|[(_ & _ & Hpr & _)|[(? & _)|(_ & ? & _)]]]; try done.
        left. rewrite Hpr. apply elem_of_union. right. by apply elem_of_singleton.
      - right. left. by exists j. }
    destruct Hstep as [Hp'|[Hj|Heq]].
    + destruct (IH (S i) st' Hrest (or_introl Hp')) as [?|[j Hj]]; [by left|].
      right. by exists (S j).
    + destruct (IH (S i) st' Hrest (or_intror Hj)) as [?|[j Hj']]; [by left|].
      right. by exists (S j).
    + right. exists 0. simpl. by rewrite Heq.
Qed.

Lemma apply_feedback_absent_origin (feedback : list (ascii * string)) (i : nat)
    (st st1 : State) (a : ascii) :
  apply_feedback i feedback st = (Ok (), st1) →
  a ∈ absent st1 → a ∈ absent st ∨ ∃ j, feedback !! j = Some (a, "A").
Proof.
  revert i st. induction feedback as [|[letter color] rest IH]; intros i st.
  - simpl. intros [= <-]. by left.
  - intros (st' & Hmark & Hrest)%apply_feedback_cons Ha.
    apply apply_mark_inv in Hmark as [_ Hmark].
    destruct (IH (S i) st' Hrest Ha) as [Ha'|[j Hj]]; [|right; by exists (S j)].
    destruct Hmark as [(_ & _ & _ & _ & Hab)|[(_ & _ & _ & Hab)|[(-> & _ & _ & Hab)|(_ & _ & _ & _ & _ & Hab)]]];
      rewrite Hab in Ha'; try by left.
    apply elem_of_union in Ha' as [?|Heq%elem_of_singleton]; [by left|].
    subst a. right. by exists 0.
Qed.

(** ** Filtering soundness *)

Lemma feedback_of_lookup (guess : Word) (pattern : Pattern) (j : nat) (l : ascii)
    (m : string) :
  feedback_of guess pattern !! j = Some (l, m)
  ↔ guess !! j = Some l ∧ pattern !! j = Some m.
Proof.
  unfold feedback_of. rewrite lookup_zip_with_Some. split.
  - by intros (x & y & [= -> ->] & ? & ?).
  - intros [? ?]. by exists l, m.
Qed.

Lemma feedback_of_length (guess : Word) (pattern : Pattern) :
  length (feedback_of guess pattern) ≤ length pattern.
Proof. unfold feedback_of. rewrite length_zip. lia. Qed.

(** A word that meets the constraints of a state still meets them after
    the feedback loop and the cleanup, when the feedback is the pattern of
    the guess against that very word. *)
Lemma truthful_feedback_satisfies (st st1 : State) (guess secret : Word) (pattern : Pattern) :
  length (correct st) = length secret →
  satisfies st secret →
  get_pattern guess secret = Ok pattern →
  apply_feedback 0 (feedback_of guess pattern) st = (Ok (), st1) →
  satisfies (clean_constraints st1) secret.
Proof.
  intros Hlen (V1 & V2 & V3) Hpat Hrun.
  set (fb := feedback_of guess pattern) in *.
  assert (∀ j l, fb !! j = Some (l, "C") → secret !! j = Some l) as HC.
  { intros j l [Hg Hp]%feedback_of_lookup.
    apply (get_pattern_C guess secret pattern j Hpat) in Hp as (x & Hx & Hs). congruence. }
  assert (∀ j l, fb !! j = Some (l, "P") → l ∈ secret) as HP.
  { intros j l [Hg Hp]%feedback_of_lookup.
    destruct (get_pattern_P guess secret pattern j Hpat Hp) as (x & Hx & Hs). congruence. }
  assert (∀ j l, fb !! j = Some (l, "A") → l ∈ secret →
          ∃ j', fb !! j' = Some (l, "C") ∨ fb !! j' = Some (l, "P")) as HA.
  { intros j l [Hg Hp]%feedback_of_lookup Hs.
    destruct (get_pattern_A_covered guess secret pattern j l Hpat Hg Hs) as (j' & Hg' & Hm).
    exists j'. destruct Hm; [left | right]; by apply feedback_of_lookup. }
  assert (∀ j l, fb !! j = Some (l, "C") → l ∈ correct st1) as K2.
  { intros j l Hj.
    destruct (apply_feedback_correct fb 0 st st1 j Hrun) as [(j' & l' & -> & Hj' & Hl')|[Hnone _]].
    - simpl in *. rewrite Hj in Hj'. injection Hj' as <-.
      by apply list_elem_of_lookup_2 in Hl'.
    - by destruct (Hnone j l eq_refl). }
  assert (∀ l, l ∈ present st ∨ (∃ j, fb !! j = Some (l, "P")) →
          l ∈ present st1 ∨ l ∈ correct st1) as K3.
  { intros l Hl.
    destruct (apply_feedback_present_kept fb 0 st st1 l Hrun Hl) as [?|[j Hj]]; [by left|].
    right. by apply (K2 j). }
  assert (∀ k c, correct st !! k = Some c → secret !! k = Some c →
          correct st1 !! k = Some c) as K.
  { intros k c Hk Hs.
    destruct (apply_feedback_correct fb 0 st st1 k Hrun) as [(j & l & -> & Hj & Hl)|[_ Hsame]].
    - simpl in *. apply HC in Hj. congruence.
    - congruence. }
  split; [|split].
  - intros i c Hi Hc. rewrite clean_constraints_correct in Hi.
    destruct (apply_feedback_correct fb 0 st st1 i Hrun) as [(j & l & -> & Hj & Hl)|[_ Hsame]].
    + simpl in *. apply HC in Hj. congruence.
    + rewrite Hsame in Hi. by apply V1.
  - intros p [Hp _]%clean_constraints_present.
    destruct (apply_feedback_present_origin fb 0 st st1 p Hrun Hp) as [?|[j Hj]].
    + by apply V2.
    + by apply (HP j).
  - intros a Ha _ Hnp Hs. apply clean_constraints_absent in Ha as (Ha & Hnc & _).
    assert (a ∈ present st ∨ (∃ j, fb !! j = Some (a, "P")) → False) as Hcov.
    { intros [Hp1|Hc1]%K3; [|done].
      apply Hnp, clean_constraints_present. done. }
    destruct (apply_feedback_absent_origin fb 0 st st1 a Hrun Ha) as [Hold|[j Hj]].
    + destruct (decide (a ∈ present st)) as [Hp|Hp]; [by apply Hcov; left|].
      destruct (decide (a ∈ correct st)) as [Hc|Hc]; [|by apply (V3 a)].
      assert (∃ k, correct st !! k = Some a ∧ secret !! k = Some a) as (k & Hk & Hsk).
      { destruct (decide (a = "?"%char)) as [->|Hq].
        - apply list_elem_of_lookup_1 in Hs as [k Hk]. exists k. split; [|done].
          destruct (lookup_lt_is_Some_2 (correct st) k) as [c Hck].
          { rewrite Hlen. by apply lookup_lt_Some in Hk. }
          destruct (decide (c = "?"%char)) as [->|Hcq]; [done|].
          specialize (V1 k c Hck Hcq). congruence.
        - apply list_elem_of_lookup_1 in Hc as [k Hk]. exists k. split; [done|].
          by apply V1. }
      apply Hnc. apply (list_elem_of_lookup_2 _ k). by apply K.
    + destruct (HA j a Hj Hs) as [j' [HjC|HjP]].
      * by apply Hnc, (K2 j').
      * apply Hcov. right. by exists j'.
Qed.

Lemma consistent_initial (answers : list Word) :
  loaded answers → consistent (initial_state answers).
Proof.
  intros Hloaded. unfold loaded in Hloaded. split; [done|]. split; [done|].
  apply Forall_forall. intros w Hw.
  rewrite Forall_forall in Hloaded. specialize (Hloaded w Hw).
  apply satisfies_is_word_valid.
  - by intros p ?%not_elem_of_empty.
  - simpl. lia.
  - split; [|split].
    + intros i c [-> _]%lookup_replicate Hc. done.
    + by intros p ?%not_elem_of_empty.
    + by intros a ?%not_elem_of_empty.
Qed.

Lemma consistent_update (st st' : State) (guess : Word) (feedback : list (ascii * string)) :
  consistent st → update_state guess feedback st = (Ok (), st') → consistent st'.
Proof.
  intros (Hc & Hp & _). rewrite update_state_unfold.
  pose proof (apply_feedback_correct_length feedback 0 st) as Hlen.
  pose proof (apply_feedback_possible feedback 0 st) as Hposs.
  destruct (apply_feedback 0 feedback st) as [[[]|e] st1]; simpl in *; [|done].
  destruct (filter_possible_total (clean_constraints st1) (possible st1))
    as (np & Hnp & Hmem).
  { rewrite clean_constraints_correct, Hlen, Hc, Hposs. done. }
  rewrite Hnp. intros [= <-]. split; [|split]; simpl.
  - by rewrite Hlen.
  - apply Forall_forall. intros w [Hw _]%Hmem.
    rewrite Forall_forall in Hp. apply Hp. by rewrite <- Hposs.
  - apply Forall_forall. intros w [_ Hw]%Hmem.
    by rewrite is_word_valid_set_possible.
Qed.

Lemma reachable_consistent (answers : list Word) (st : State) :
  loaded answers → reachable answers st → consistent st.
Proof.
  intros Hloaded. induction 1 as [|st st' guess feedback _ IH Hrun].
  - by apply consistent_initial.
  - by eapply consistent_update.
Qed.

(** In a consistent state, truthful feedback never loses the secret word,
    and the call returns. *)
Lemma update_state_keeps_secret (st : State) (guess secret : Word) (pattern : Pattern) :
  consistent st →
  secret ∈ possible st →
  get_pattern guess secret = Ok pattern →
  ∃ st', update_state guess (feedback_of guess pattern) st = (Ok (), st')
         ∧ secret ∈ possible st'.
Proof.
  intros (Hc & Hp & Hv) Hsecret Hpat.
  rewrite Forall_forall in Hp, Hv.
  pose proof (Hp secret Hsecret) as Hs5.
  pose proof (is_word_valid_satisfies st secret (Hv secret Hsecret)) as Hsat.
  rewrite update_state_unfold.
  pose proof (apply_feedback_correct_length (feedback_of guess pattern) 0 st) as Hlen.
  pose proof (apply_feedback_possible (feedback_of guess pattern) 0 st) as Hposs.
  pose proof (apply_feedback_Ok (feedback_of guess pattern) 0 st) as Hok.
  destruct (apply_feedback 0 (feedback_of guess pattern) st) as [r st1] eqn:Hrun;
    simpl in *.
  assert (r = Ok ()) as ->.
  { apply Hok. pose proof (feedback_of_length guess pattern) as Hfb.
    rewrite (get_pattern_length guess secret pattern Hpat) in Hfb. lia. }
  destruct (filter_possible_total (clean_constraints st1) (possible st1))
    as (np & Hnp & Hmem).
  { rewrite clean_constraints_correct, Hlen, Hc, Hposs. by apply Forall_forall. }
  rewrite Hnp. eexists. split; [done|]. simpl. apply Hmem. split.
  - by rewrite Hposs.
  - apply satisfies_is_word_valid.
    + apply clean_constraints_invariant.
    + rewrite clean_constraints_correct. lia.
    + apply (truthful_feedback_satisfies st st1 guess secret pattern);
        [lia | done | done | done].
Qed.

(** C1: in every knowledge state the solver reaches from a loaded answer
    list, for every guess and every secret word among the candidates, when
    the feedback given to [update_state] is the pattern [get_pattern]
    computes for the guess against the secret, [update_state] returns and
    the secret is still among the candidates. *)
Theorem update_state_sound (answers : list Word) (st : State) (guess secret : Word)
    (pattern : Pattern) :
  loaded answers →
  reachable answers st →
  secret ∈ possible st →
  get_pattern guess secret = Ok pattern →
  ∃ st', update_state guess (feedback_of guess pattern) st = (Ok (), st')
         ∧ secret ∈ possible st'.
Proof.
  intros Hloaded Hreach. apply update_state_keeps_secret.
  by apply (reachable_consistent answers).
Qed.

Lemma update_state_sound_witness :
  ∃ st', update_state (word_of "CRANE")
           (feedback_of (word_of "CRANE") ["A"; "A"; "C"; "A"; "C"])
           (initial_state [word_of "CRANE"; word_of "SLATE"; word_of "PLANE"])
         = (Ok (), st')
         ∧ word_of "SLATE" ∈ possible st'.
Proof.
  apply (update_state_sound [word_of "CRANE"; word_of "SLATE"; word_of "PLANE"]
           (initial_state [word_of "CRANE"; word_of "SLATE"; word_of "PLANE"])
           (word_of "CRANE") (word_of "SLATE") ["A"; "A"; "C"; "A"; "C"]).
  - repeat constructor.
  - constructor.
  - simpl. apply list_elem_of_further, list_elem_of_here.
  - vm_compute. reflexivity.
Defined.

(** A state the solver cannot reach may lose the secret: here [present]
    requires a letter that no candidate holds. *)
Example update_state_unreachable_state :
  let st := mkState [word_of "SLATE"] (word_of "?????") {[ "Z"%char ]} ∅ in
  update_state (word_of "CRANE") (feedback_of (word_of "CRANE") ["A"; "A"; "C"; "A"; "C"]) st
  = (Ok (), mkState [] (word_of "??A?E") {[ "Z"%char ]}
              {[ "C"%char; "R"%char; "N"%char ]}).
Proof. vm_compute. reflexivity. Qed.

(** ** The entropy scorer *)

Section ScorerFacts.

Variable float : Type.
Variable int_zero : float.
Variable neg_inf : float.
Variable fadd : float → float → float.
Variable entropy_term : nat → nat → float.
Variable fgt : float → float → bool.

#[local] Abbreviation entropy' := (entropy float int_zero fadd entropy_term).
#[local] Abbreviation calculate_entropy' :=
  (calculate_entropy float int_zero fadd entropy_term).
#[local] Abbreviation best_loop' := (best_loop float int_zero fadd entropy_term fgt).
#[local] Abbreviation get_best_guess' :=
  (get_best_guess float int_zero neg_inf fadd entropy_term fgt).

Lemma tally_valid (word : Word) (words : list Word) (pattern_counts : list (Pattern * nat))
    (cache : Cache) :
  cache_valid cache →
  ∃ cache', tally word words pattern_counts cache
            = (tally_patterns word words pattern_counts, cache')
            ∧ cache_valid cache'.
Proof.
  revert pattern_counts cache.
  induction words as [|w rest IH]; intros pc cache Hvalid; simpl.
  - by exists cache.
  - unfold bind.
    destruct (get_pattern_cached_valid word w cache Hvalid) as [Hres Hvalid'].
    destruct (get_pattern_cached word w cache) as [r cache1]. simpl in *. subst r.
    destruct (get_pattern word w) as [p|e]; simpl.
    + by apply IH.
    + by exists cache1.
Qed.

(** On a valid cache [calculate_entropy] returns the score [entropy]. *)
Lemma calculate_entropy_valid (st : State) (word : Word) (cache : Cache) :
  cache_valid cache →
  ∃ cache', calculate_entropy' st word cache = (entropy' (possible st) word, cache')
            ∧ cache_valid cache'.
Proof.
  intros Hvalid. unfold calculate_entropy, entropy, bind.
  destruct (tally_valid word (possible st) [] cache Hvalid) as (cache' & -> & Hvalid').
  exists cache'. split; [|done].
  by destruct (tally_patterns word (possible st) []).
Qed.

Lemma tally_patterns_total (word : Word) (words : list Word)
    (pattern_counts : list (Pattern * nat)) :
  length word ≤ 5 → ∃ pc, tally_patterns word words pattern_counts = Ok pc.
Proof.
  intros Hlen. revert pattern_counts.
  induction words as [|w rest IH]; intros pc; simpl; [by eexists|].
  rewrite get_pattern_run by done. simpl. apply IH.
Qed.

Lemma sum_terms_total (acc : float) (total : nat) (values : list nat) :
  total ≠ 0 ∨ values = [] →
  ∃ s, sum_terms float fadd entropy_term acc total values = Ok s.
Proof.
  revert acc. induction values as [|count rest IH]; intros acc Htotal; simpl; [by eexists|].
  destruct Htotal as [Htotal|[=]]. rewrite decide_False by done. apply IH. by left.
Qed.

(** Every word of at most five letters has a score: no pattern computation
    raises, and the division by [total] is reached only for a candidate
    list that is not empty. *)
Lemma entropy_total (words : list Word) (word : Word) :
  length word ≤ 5 → ∃ s, entropy' words word = Ok s.
Proof.
  intros Hlen. unfold entropy.
  destruct words as [|w rest].
  - simpl. by eexists.
  - destruct (tally_patterns_total word (w :: rest) [] Hlen) as [pc ->]. simpl.
    apply sum_terms_total. by left.
Qed.

Lemma best_loop_in_pool (st : State) (candidates : list Word) (best_word : option Word)
    (best_score : float) (cache : Cache) (w : Word) :
  (best_loop' st candidates best_word best_score cache).1 = Ok (Some w) →
  best_word = Some w ∨ w ∈ candidates.
Proof.
  revert best_word best_score cache.
  induction candidates as [|c rest IH]; intros bw bs cache; simpl.
  - intros [= ->]. by left.
  - unfold bind. destruct (calculate_entropy' st c cache) as [[score|e] cache1]; [|done].
    destruct (fgt score bs).
    + intros [[= ->]|Hin]%IH; right; [apply list_elem_of_here | by apply list_elem_of_further].
    + intros [->|Hin]%IH; [by left | right; by apply list_elem_of_further].
Qed.

(** Whatever the cache holds and however floats compare, a word that
    [get_best_guess] returns is one of the candidate pool. *)
Theorem get_best_guess_in_pool (solver : Solver) (cache : Cache) (w : Word) :
  (get_best_guess' solver cache).1 = Ok (Some w) → w ∈ take 2315 (allowed solver).
Proof.
  unfold get_best_guess. by intros [[=]|Hin]%best_loop_in_pool.
Qed.

(** The floats that are numbers other than the infinities, and what the
    comparison [>] of Python floats satisfies on them. *)
Variable ordinary : float → Prop.
Hypothesis fgt_trans : ∀ x y z, fgt x y = true → fgt y z = true → fgt x z = true.
Hypothesis fgt_negtrans :
  ∀ x y z, ordinary z → fgt x y = true → fgt z y = false → fgt x z = true.
Hypothesis fgt_neg_inf : ∀ x, ordinary x → fgt x neg_inf = true.

#[local] Abbreviation first_maximum' := (first_maximum float int_zero fadd entropy_term fgt).

(** The loop of [get_best_guess] from any running best: either no candidate
    beats the running score and the running word is returned, or the word
    returned is the first maximum of the candidates and beats it. *)
Lemma best_loop_spec (st : State) (candidates : list Word) (best_word : option Word)
    (best_score : float) (cache : Cache) :
  cache_valid cache →
  Forall (λ w, length w ≤ 5) candidates →
  (∀ w s, w ∈ candidates → entropy' (possible st) w = Ok s → ordinary s) →
  ∃ r cache',
    best_loop' st candidates best_word best_score cache = (Ok r, cache')
    ∧ cache_valid cache'
    ∧ ((r = best_word
        ∧ ∀ k wk sk, candidates !! k = Some wk → entropy' (possible st) wk = Ok sk →
            fgt sk best_score = false)
       ∨ (∃ i w s, r = Some w
            ∧ candidates !! i = Some w
            ∧ entropy' (possible st) w = Ok s
            ∧ fgt s best_score = true
            ∧ (∀ j wj sj, j < i → candidates !! j = Some wj →
                 entropy' (possible st) wj = Ok sj → fgt s sj = true)
            ∧ (∀ k wk sk, i < k → candidates !! k = Some wk →
                 entropy' (possible st) wk = Ok sk → fgt sk s = false))).
Proof.
  intros Hvalid Hlen. revert best_word best_score cache Hvalid.
  induction Hlen as [|w rest Hw Hrest IH]; intros bw bs cache Hvalid Hord.
  - exists bw, cache. split; [done|]. split; [done|]. left. split; [done|].
    by intros k wk sk.
  - destruct (entropy_total (possible st) w Hw) as [s Hs].
    destruct (calculate_entropy_valid st w cache Hvalid) as (cache1 & Hce & Hvalid1).
    assert (ordinary s) as Hos by (apply (Hord w); [apply list_elem_of_here | done]).
    assert (∀ w' s', w' ∈ rest → entropy' (possible st) w' = Ok s' → ordinary s')
      as Hord' by (intros w' s' Hin; apply Hord; by apply list_elem_of_further).
    simpl. unfold bind. rewrite Hce, Hs.
    destruct (fgt s bs) eqn:Hgt.
    + destruct (IH (Some w) s cache1 Hvalid1 Hord')
        as (r & cache' & Hrun & Hv' & Hcase).
      exists r, cache'. split; [done|]. split; [done|]. right.
      destruct Hcase as [[-> Hall]|(i & w' & s' & -> & Hi & Hs' & Hgt' & Hbefore & Hafter)].
      * exists 0, w, s. split; [done|]. split; [done|]. split; [done|]. split; [done|].
        split; [intros j wj sj Hj; lia|].
        intros [|k] wk sk Hk; [lia|]. simpl. apply Hall.
      * exists (S i), w', s'. split; [done|]. split; [done|]. split; [done|].
        split; [by apply (fgt_trans s' s bs)|]. split.
        -- intros [|j] wj sj Hj; simpl.
           ++ intros [= <-] Hsj. rewrite Hs in Hsj. by injection Hsj as <-.
           ++ apply Hbefore. lia.
        -- intros [|k] wk sk Hk; [lia|]. simpl. apply Hafter. lia.
    + destruct (IH bw bs cache1 Hvalid1 Hord')
        as (r & cache' & Hrun & Hv' & Hcase).
      exists r, cache'. split; [done|]. split; [done|].
      destruct Hcase as [[-> Hall]|(i & w' & s' & -> & Hi & Hs' & Hgt' & Hbefore & Hafter)].
      * left. split; [done|]. intros [|k] wk sk; simpl.
        -- intros [= <-] Hsk. rewrite Hs in Hsk. by injection Hsk as <-.
        -- apply Hall.
      * right. exists (S i), w', s'. split; [done|]. split; [done|]. split; [done|].
        split; [done|]. split.
        -- intros [|j] wj sj Hj; simpl.
           ++ intros [= <-] Hsj. rewrite Hs in Hsj. injection Hsj as <-.
              by apply (fgt_negtrans s' bs s).
           ++ apply Hbefore. lia.
        -- intros [|k] wk sk Hk; [lia|]. simpl. apply Hafter. lia.
Qed.

(** There is at most one first maximum, so it is "the" word returned. *)
Lemma first_maximum_unique (words candidates : list Word) (i i' : nat) (w w' : Word) :
  first_maximum' words candidates i w → first_maximum' words candidates i' w' →
  i = i' ∧ w = w'.
Proof.
  intros (s & Hi & Hs & Hb & Ha) (s' & Hi' & Hs' & Hb' & Ha').
  destruct (Nat.lt_trichotomy i i') as [Hlt|[->|Hlt]].
  - specialize (Hb' i w s Hlt Hi Hs). specialize (Ha i' w' s' Hlt Hi' Hs'). congruence.
  - split; [done|]. congruence.
  - specialize (Hb i' w' s' Hlt Hi' Hs'). specialize (Ha' i w s Hlt Hi Hs). congruence.
Qed.

(** C6: on a cache filled by earlier calls, for allowed words of at most
    five letters whose scores are ordinary numbers, [get_best_guess] returns;
    it returns [None] exactly when the candidate pool (the first 2315
    allowed words) is empty, and otherwise the word at the one position of
    the pool whose score is strictly greater than the score of every
    earlier word and is exceeded by the score of no later word. The result
    is a function of the pool and the [possible] list in their order. *)
Theorem get_best_guess_first_maximum (solver : Solver) (cache : Cache) :
  cache_valid cache →
  Forall (λ w, length w ≤ 5) (allowed solver) →
  (∀ w s, w ∈ take 2315 (allowed solver) →
          entropy' (possible (state solver)) w = Ok s → ordinary s) →
  ∃ best cache',
    get_best_guess' solver cache = (Ok best, cache')
    ∧ match best with
      | None => take 2315 (allowed solver) = []
      | Some w =>
          ∃ i, first_maximum' (possible (state solver)) (take 2315 (allowed solver)) i w
      end.
Proof.
  intros Hvalid Hlen Hord. unfold get_best_guess.
  assert (Forall (λ w, length w ≤ 5) (take 2315 (allowed solver))) as Hpool_len
    by (by apply Forall_take).
  destruct (best_loop_spec (state solver) (take 2315 (allowed solver)) None neg_inf cache
              Hvalid Hpool_len Hord)
    as (r & cache' & Hrun & _ & Hcase).
  exists r, cache'. split; [done|].
  destruct Hcase as [[-> Hall]|(i & w & s & -> & Hi & Hs & _ & Hb & Ha)].
  - destruct (take 2315 (allowed solver)) as [|w rest] eqn:Hpool; [done|].
    assert (length w ≤ 5) as Hw by (by inversion Hpool_len).
    destruct (entropy_total (possible (state solver)) w Hw) as [s Hs].
    specialize (Hall 0 w s eq_refl Hs).
    rewrite fgt_neg_inf in Hall; [done|].
    apply (Hord w); [apply list_elem_of_here | done].
  - exists i, s. done.
Qed.

End ScorerFacts.

(** An instance of the scorer for running it: integer scores, with
    [count * (total - count)] in place of the entropy term (it is [0] when
    all candidates give one pattern and grows as the patterns split them). *)
Lemma get_best_guess_first_maximum_witness :
  let term := λ count total : nat, Z.of_nat (count * (total - count)) in
  let words := [word_of "ABIDE"; word_of "ABODE"] in
  let solver :=
    mkSolver words [word_of "CRANE"; word_of "ABIDE"; word_of "ABODE"]
      (initial_state words) in
  ∃ best cache',
    get_best_guess Z 0%Z (-1)%Z Z.add term Z.gtb solver ∅ = (Ok best, cache')
    ∧ match best with
      | None => take 2315 (allowed solver) = []
      | Some w =>
          ∃ i, first_maximum Z 0%Z Z.add term Z.gtb (possible (state solver))
                 (take 2315 (allowed solver)) i w
      end.
Proof.
  apply (get_best_guess_first_maximum Z 0%Z (-1)%Z Z.add
           (λ count total : nat, Z.of_nat (count * (total - count))) Z.gtb
           (λ x, (0 ≤ x)%Z)).
  - intros x y z. rewrite !Z.gtb_ltb, !Z.ltb_lt. lia.
  - intros x y z. rewrite !Z.gtb_ltb, !Z.ltb_lt, Z.ltb_ge. lia.
  - intros x. rewrite Z.gtb_ltb, Z.ltb_lt. lia.
  - apply cache_valid_empty.
  - repeat constructor.
  - intros w s Hw Hs. simpl in Hw.
    repeat (apply elem_of_cons in Hw as [->|Hw]);
      [vm_compute in Hs; injection Hs as <-; done..|].
    by apply elem_of_nil in Hw.
Defined.

Example get_best_guess_run :
  (get_best_guess Z 0%Z (-1)%Z Z.add (λ count total : nat, Z.of_nat (count * (total - count)))
     Z.gtb
     (mkSolver [word_of "ABIDE"; word_of "ABODE"]
        [word_of "CRANE"; word_of "ABIDE"; word_of "ABODE"]
        (initial_state [word_of "ABIDE"; word_of "ABODE"])) ∅).1
  = Ok (Some (word_of "ABIDE")).
Proof. vm_compute. reflexivity. Qed.

Lemma get_best_guess_in_pool_witness :
  word_of "ABIDE" ∈ take 2315 [word_of "CRANE"; word_of "ABIDE"; word_of "ABODE"].
Proof.
  apply (get_best_guess_in_pool Z 0%Z (-1)%Z Z.add
           (λ count total : nat, Z.of_nat (count * (total - count))) Z.gtb
           (mkSolver [word_of "ABIDE"; word_of "ABODE"]
              [word_of "CRANE"; word_of "ABIDE"; word_of "ABODE"]
              (initial_state [word_of "ABIDE"; word_of "ABODE"])) ∅).
  vm_compute. reflexivity.
Defined.

(** * Further properties of the code *)

(** ** [get_pattern]: when it returns, and what each cell holds *)

Lemma first_pass_raises (pairs : list (ascii * ascii)) (i : nat) (pattern : Pattern)
    (counts : gmap ascii nat) (e : exn) :
  first_pass i pairs pattern counts = Raise e → e = IndexError.
Proof.
  revert i pattern counts. induction pairs as [|[g t] rest IH]; intros i pattern counts;
    simpl; [done|].
  case_decide; [|apply IH].
  unfold list_set. case_decide; simpl; [apply IH | by intros [= <-]].
Qed.

Lemma second_pass_raises (guess target : Word) (i : nat) (pattern : Pattern)
    (counts : gmap ascii nat) (e : exn) :
  second_pass i guess target pattern counts = Raise e → e = IndexError.
Proof.
  revert i pattern counts. induction guess as [|g rest IH]; intros i pattern counts;
    simpl; [done|].
  unfold list_get. destruct (pattern !! i) as [m|]; simpl; [|by intros [= <-]].
  case_decide; [apply IH|].
  unfold list_set. repeat case_decide; simpl; try apply IH; by intros [= <-].
Qed.

Lemma get_pattern_outcome (guess target : Word) :
  match get_pattern guess target with
  | Ok pattern => length guess ≤ 5 ∧ length pattern = 5
  | Raise e => 5 < length guess ∧ e = IndexError
  end.
Proof.
  destruct (get_pattern guess target) as [pattern|e] eqn:Hrun.
  - split; [by apply get_pattern_Ok in Hrun as [? _] | by eapply get_pattern_length].
  - split.
    + destruct (decide (length guess ≤ 5)) as [Hle|]; [|lia].
      by rewrite get_pattern_run in Hrun.
    + unfold get_pattern in Hrun.
      destruct (first_pass 0 (zip guess target) (replicate 5 EmptyString) ∅)
        as [[p1 c1]|e1] eqn:H1; simpl in Hrun.
      * destruct (second_pass 0 guess target p1 c1) as [[p2 c2]|e2] eqn:H2;
          simpl in Hrun; [done|].
        injection Hrun as <-. by eapply second_pass_raises.
      * injection Hrun as <-. by eapply first_pass_raises.
Qed.

(** [get_pattern] returns a pattern of five cells when the guess has at most
    five letters and raises [IndexError] when it has more, whatever the
    target is (its length included). *)
Theorem get_pattern_returns_or_overruns (guess target : Word) :
  match get_pattern guess target with
  | Ok pattern => length guess ≤ 5 ∧ length pattern = 5
  | Raise e => 5 < length guess ∧ e = IndexError
  end.
Proof. apply get_pattern_outcome. Qed.

Lemma exact_marks_beyond (pairs : list (ascii * ascii)) (cells : Pattern) (i : nat) :
  length pairs ≤ i → exact_marks pairs cells !! i = cells !! i.
Proof.
  revert cells i. induction pairs as [|[g t] rest IH]; intros cells i Hlen.
  - by destruct cells.
  - destruct cells as [|m cells]; [done|]. simpl in *.
    destruct i as [|i]; [lia|]. simpl. apply IH. lia.
Qed.

Lemma budget_marks_beyond (guess target : Word) (cells : Pattern) (counts : gmap ascii nat)
    (i : nat) :
  length guess ≤ i → budget_marks guess target cells counts !! i = cells !! i.
Proof.
  revert cells counts i. induction guess as [|g rest IH]; intros cells counts i Hlen; [done|].
  destruct cells as [|m cells]; [done|]. simpl in *.
  destruct i as [|i]; [lia|].
  repeat case_decide; simpl; apply IH; lia.
Qed.

Lemma unmatched_take_exact (x : ascii) (guess target : Word) (n i : nat) :
  length guess ≤ n →
  unmatched x (take i guess)
    (take i (exact_marks (zip guess target) (replicate n EmptyString)))
  = misplaced x guess target i.
Proof.
  revert target n i. induction guess as [|g guess IH]; intros target n i Hlen.
  - destruct i; simpl; by destruct (take _ _).
  - destruct n as [|n]; simpl in Hlen; [lia|].
    destruct i as [|i]; [done|].
    destruct target as [|t target].
    + specialize (IH [] n i ltac:(lia)). simpl in *.
      rewrite unmatched_cons. f_equal.
      * destruct (decide (g = x)) as [->|Hgx].
        -- rewrite !decide_True; [done | by split | by split].
        -- rewrite !decide_False; [done | tauto | tauto].
      * destruct guess; exact IH.
    + specialize (IH target n i ltac:(lia)). simpl.
      rewrite unmatched_cons, IH. f_equal.
      destruct (decide (g = t)) as [->|Hgt].
      * rewrite !decide_False; [done | | tauto]. intros [-> H]. by destruct H.
      * destruct (decide (g = x)) as [->|Hgx].
        -- rewrite !decide_True; [done | | by split]. split; [done|]. congruence.
        -- rewrite !decide_False; [done | tauto | tauto].
Qed.

Lemma budget_marks_lookup (guess target : Word) (cells : Pattern) (counts : gmap ascii nat)
    (i : nat) (x : ascii) :
  guess !! i = Some x →
  (Forall (λ m, m ≠ "P") cells →
   budget_marks guess target cells counts !! i = Some "P"
   ↔ (∃ m, cells !! i = Some m ∧ m ≠ "C")
     ∧ counts_get counts x + unmatched x (take i guess) (take i cells)
       < total_in_target target x)
  ∧ (Forall (λ m, m ≠ "A") cells →
     budget_marks guess target cells counts !! i = Some "A"
     ↔ (∃ m, cells !! i = Some m ∧ m ≠ "C")
       ∧ total_in_target target x
         ≤ counts_get counts x + unmatched x (take i guess) (take i cells)).
Proof.
  revert cells counts i. induction guess as [|g guess IH]; intros cells counts i Hi; [done|].
  destruct cells as [|m cells].
  { simpl. split; intros _; (split; [done | by intros [(? & [=] & _) _]]). }
  destruct i as [|i]; simpl in Hi.
  - injection Hi as ->. simpl.
    assert (unmatched x [] [] = 0) as -> by done. rewrite Nat.add_0_r.
    split; intros Hcells; apply Forall_cons_1 in Hcells as [Hm _].
    + destruct (decide (m = "C")) as [->|HmC]; simpl.
      * split; [by intros [=] | by intros [(m' & [= <-] & Hm') _]].
      * destruct (decide (counts_get counts x < total_in_target target x)) as [Hb|Hb];
          simpl.
        -- split; [intros _; split; [by exists m | done] | done].
        -- split; [by intros [=] | by intros [_ Hlt]].
    + destruct (decide (m = "C")) as [->|HmC]; simpl.
      * split; [by intros [=] | by intros [(m' & [= <-] & Hm') _]].
      * destruct (decide (counts_get counts x < total_in_target target x)) as [Hb|Hb];
          simpl.
        -- split; [by intros [=] | intros [_ Hle]; lia].
        -- split; [intros _; split; [by exists m | lia] | done].
  - simpl. rewrite unmatched_cons.
    split; intros Hcells; apply Forall_cons_1 in Hcells as [Hm Hcells].
    + case_decide as HmC; simpl.
      * destruct (IH cells counts i Hi) as [HP _]. rewrite (HP Hcells).
        rewrite (decide_False (P := g = x ∧ m ≠ "C")) by tauto. done.
      * case_decide as Hb; simpl.
        -- destruct (IH cells (counts_incr counts g) i Hi) as [HP _]. rewrite (HP Hcells).
           rewrite counts_get_incr.
           destruct (decide (g = x)) as [->|Hgx].
           ++ rewrite !decide_True by done. split; intros [? ?]; (split; [done | lia]).
           ++ rewrite !decide_False by tauto. done.
        -- destruct (IH cells counts i Hi) as [HP _]. rewrite (HP Hcells).
           destruct (decide (g = x)) as [->|Hgx].
           ++ rewrite decide_True by done. split; intros [? ?]; lia.
           ++ rewrite decide_False by tauto. done.
    + case_decide as HmC; simpl.
      * destruct (IH cells counts i Hi) as [_ HA]. rewrite (HA Hcells).
        rewrite (decide_False (P := g = x ∧ m ≠ "C")) by tauto. done.
      * case_decide as Hb; simpl.
        -- destruct (IH cells (counts_incr counts g) i Hi) as [_ HA]. rewrite (HA Hcells).
           rewrite counts_get_incr.
           destruct (decide (g = x)) as [->|Hgx].
           ++ rewrite !decide_True by done. split; intros [? ?]; (split; [done | lia]).
           ++ rewrite !decide_False by tauto. done.
        -- destruct (IH cells counts i Hi) as [_ HA]. rewrite (HA Hcells).
           destruct (decide (g = x)) as [->|Hgx].
           ++ rewrite decide_True by done. split; intros [? ?]; (split; [done | lia]).
           ++ rewrite decide_False by tauto. done.
Qed.

Lemma exact_marks_unmatched_cell (guess target : Word) (i : nat) (x : ascii) :
  length guess ≤ 5 → guess !! i = Some x →
  (∃ m, exact_marks (zip guess target) (replicate 5 EmptyString) !! i = Some m ∧ m ≠ "C")
  ↔ target !! i ≠ Some x.
Proof.
  intros Hlen Hi.
  pose proof (exact_marks_C guess target 5 i) as HC.
  assert (i < 5) as Hi5 by (apply lookup_lt_Some in Hi; lia).
  destruct (lookup_lt_is_Some_2
              (exact_marks (zip guess target) (replicate 5 EmptyString)) i) as [m Hm].
  { by rewrite exact_marks_length, length_replicate. }
  split.
  - intros (m' & Hm' & Hne) Ht. apply Hne.
    assert (Some m' = Some "C") as [= ->]; [|done].
    rewrite <- Hm'. apply HC. split; [done|]. by exists x.
  - intros Ht. exists m. split; [done|]. intros ->.
    apply HC in Hm as [_ (x' & Hx' & Ht')]. congruence.
Qed.

Lemma get_pattern_cell (guess target : Word) (pattern : Pattern) (i : nat) (x : ascii) :
  get_pattern guess target = Ok pattern →
  guess !! i = Some x →
  (pattern !! i = Some "C" ↔ target !! i = Some x)
  ∧ (pattern !! i = Some "P"
     ↔ target !! i ≠ Some x
       ∧ matched x (zip guess target) + misplaced x guess target i
         < total_in_target target x)
  ∧ (pattern !! i = Some "A"
     ↔ target !! i ≠ Some x
       ∧ total_in_target target x
         ≤ matched x (zip guess target) + misplaced x guess target i).
Proof.
  intros Hrun Hi. split.
  { rewrite (get_pattern_C guess target pattern i Hrun). split.
    - intros (x' & Hx' & Ht). congruence.
    - intros Ht. by exists x. }
  apply get_pattern_Ok in Hrun as [Hlen ->].
  destruct (budget_marks_lookup guess target
              (exact_marks (zip guess target) (replicate 5 EmptyString))
              (exact_counts (zip guess target) ∅) i x Hi) as [HP HA].
  rewrite HP by (apply exact_marks_Forall; [done | by apply Forall_replicate]).
  rewrite HA by (apply exact_marks_Forall; [done | by apply Forall_replicate]).
  rewrite exact_counts_matched, counts_get_empty, unmatched_take_exact by done.
  rewrite (exact_marks_unmatched_cell guess target i x Hlen Hi). simpl. done.
Qed.

(** The rule each cell of a returned pattern follows, for the letter [x] at
    position [i] of the guess: Correct exactly when the target holds [x] at
    [i]; otherwise Present exactly when the positions where guess and target
    agree on [x], together with the earlier occurrences of [x] in the guess
    that face another letter, are fewer than the occurrences of [x] in the
    target, and Absent exactly when they are not. *)
Theorem get_pattern_cell_rule (guess target : Word) (pattern : Pattern) (i : nat)
    (x : ascii) :
  get_pattern guess target = Ok pattern →
  guess !! i = Some x →
  (pattern !! i = Some "C" ↔ target !! i = Some x)
  ∧ (pattern !! i = Some "P"
     ↔ target !! i ≠ Some x
       ∧ matched x (zip guess target) + misplaced x guess target i
         < total_in_target target x)
  ∧ (pattern !! i = Some "A"
     ↔ target !! i ≠ Some x
       ∧ total_in_target target x
         ≤ matched x (zip guess target) + misplaced x guess target i).
Proof. apply get_pattern_cell. Qed.

Lemma get_pattern_cell_rule_witness :
  (["P"; "A"; "P"; "P"; "A"] !! 3 = Some "C" ↔ word_of "ERASE" !! 3 = Some "E"%char)
  ∧ (["P"; "A"; "P"; "P"; "A"] !! 3 = Some "P"
     ↔ word_of "ERASE" !! 3 ≠ Some "E"%char
       ∧ matched "E" (zip (word_of "SPEED") (word_of "ERASE"))
         + misplaced "E" (word_of "SPEED") (word_of "ERASE") 3
         < total_in_target (word_of "ERASE") "E")
  ∧ (["P"; "A"; "P"; "P"; "A"] !! 3 = Some "A"
     ↔ word_of "ERASE" !! 3 ≠ Some "E"%char
       ∧ total_in_target (word_of "ERASE") "E"
         ≤ matched "E" (zip (word_of "SPEED") (word_of "ERASE"))
           + misplaced "E" (word_of "SPEED") (word_of "ERASE") 3).
Proof.
  apply (get_pattern_cell_rule (word_of "SPEED") (word_of "ERASE")
           ["P"; "A"; "P"; "P"; "A"] 3 "E").
  - vm_compute. reflexivity.
  - reflexivity.
Defined.

(** In a returned pattern every cell that faces a letter of the guess is
    marked Correct, Present or Absent, and the cells past the end of a
    guess shorter than five letters keep the empty string they started
    with. *)
Theorem get_pattern_cells (guess target : Word) (pattern : Pattern) (i : nat) :
  get_pattern guess target = Ok pattern →
  (i < length guess →
   pattern !! i = Some "C" ∨ pattern !! i = Some "P" ∨ pattern !! i = Some "A")
  ∧ (length guess ≤ i → i < 5 → pattern !! i = Some EmptyString).
Proof.
  intros Hrun. split.
  - intros Hi. destruct (lookup_lt_is_Some_2 guess i Hi) as [x Hx].
    destruct (get_pattern_cell guess target pattern i x Hrun Hx) as (HC & HP & HA).
    destruct (decide (target !! i = Some x)) as [Ht|Ht]; [left; by apply HC|].
    destruct (decide (matched x (zip guess target) + misplaced x guess target i
                      < total_in_target target x)) as [Hlt|Hge].
    + right; left. by apply HP.
    + right; right. apply HA. split; [done | lia].
  - intros Hge Hi5. apply get_pattern_Ok in Hrun as [Hlen ->].
    rewrite budget_marks_beyond by done.
    rewrite exact_marks_beyond by (rewrite length_zip; lia).
    by apply lookup_replicate.
Qed.

Lemma get_pattern_cells_witness :
  (3 < length (word_of "ABC") →
   ["C"; "P"; "A"; EmptyString; EmptyString] !! 3 = Some "C"
   ∨ ["C"; "P"; "A"; EmptyString; EmptyString] !! 3 = Some "P"
   ∨ ["C"; "P"; "A"; EmptyString; EmptyString] !! 3 = Some "A")
  ∧ (length (word_of "ABC") ≤ 3 → 3 < 5 →
     ["C"; "P"; "A"; EmptyString; EmptyString] !! 3 = Some EmptyString).
Proof.
  apply (get_pattern_cells (word_of "ABC") (word_of "AXBYZ")
           ["C"; "P"; "A"; EmptyString; EmptyString] 3).
  vm_compute. reflexivity.
Defined.

(** ** [get_pattern_cached]: what a call does to the cache *)

Lemma get_pattern_cached_cases (guess target : Word) (cache : Cache) :
  (∃ p, cache !! (guess, target) = Some p
        ∧ get_pattern_cached guess target cache = (Ok p, cache))
  ∨ (∃ p, cache !! (guess, target) = None ∧ get_pattern guess target = Ok p
          ∧ get_pattern_cached guess target cache = (Ok p, <[(guess, target) := p]> cache))
  ∨ (∃ e, cache !! (guess, target) = None ∧ get_pattern guess target = Raise e
          ∧ get_pattern_cached guess target cache = (Raise e, cache)).
Proof.
  unfold get_pattern_cached.
  destruct (cache !! (guess, target)) as [p|] eqn:Hhit.
  - left. exists p. by rewrite Hhit.
  - right. destruct (get_pattern guess target) as [p|e].
    + left. exists p. by rewrite lookup_insert_eq.
    + right. by exists e.
Qed.

(** A call never evicts or changes an entry: the cache it leaves extends
    the one it found, differs from it at most at the key of the call, holds
    the returned pattern under that key when the call returns, and is the
    very same cache when the call raises, which it does only with the
    [IndexError] of a guess of more than five letters on a miss. *)
Theorem get_pattern_cached_effect (guess target : Word) (cache : Cache) :
  let r := get_pattern_cached guess target cache in
  cache ⊆ r.2
  ∧ (∀ k, k ≠ (guess, target) → r.2 !! k = cache !! k)
  ∧ match r.1 with
    | Ok p => r.2 !! (guess, target) = Some p
    | Raise e =>
        r.2 = cache ∧ e = IndexError ∧ 5 < length guess
        ∧ cache !! (guess, target) = None
    end.
Proof.
  simpl.
  destruct (get_pattern_cached_cases guess target cache)
    as [(p & Hhit & ->)|[(p & Hmiss & Hp & ->)|(e & Hmiss & He & ->)]]; simpl.
  - done.
  - split; [by apply insert_subseteq|]. split; [|by rewrite lookup_insert_eq].
    intros k Hk. by rewrite lookup_insert_ne.
  - split; [done|]. split; [done|].
    pose proof (get_pattern_outcome guess target) as Hres.
    rewrite He in Hres. destruct Hres as [Hlen ->]. done.
Qed.

(** Asking again is a cache hit: a second call with the same words returns
    what the first returned and leaves the cache as the first left it. *)
Theorem get_pattern_cached_repeat (guess target : Word) (cache : Cache) :
  get_pattern_cached guess target (get_pattern_cached guess target cache).2
  = get_pattern_cached guess target cache.
Proof.
  destruct (get_pattern_cached_cases guess target cache)
    as [(p & Hhit & Hrun)|[(p & Hmiss & Hp & Hrun)|(e & Hmiss & He & Hrun)]];
    rewrite Hrun; simpl.
  - done.
  - destruct (get_pattern_cached_cases guess target (<[(guess, target) := p]> cache))
      as [(q & Hhit & ->)|[(q & Hmiss' & _)|(e & Hmiss' & _)]].
    + rewrite lookup_insert_eq in Hhit. by injection Hhit as ->.
    + by rewrite lookup_insert_eq in Hmiss'.
    + by rewrite lookup_insert_eq in Hmiss'.
  - done.
Qed.

(** ** [calculate_entropy]: the histogram it builds and how it can fail *)

Lemma tallied_cons (q p : Pattern) (n : nat) (pattern_counts : list (Pattern * nat)) :
  tallied ((q, n) :: pattern_counts) p
  = (if decide (q = p) then n else 0) + tallied pattern_counts p.
Proof. unfold tallied. rewrite filter_cons. simpl. case_decide; done. Qed.

Lemma tallied_bump (pattern_counts : list (Pattern * nat)) (p q : Pattern) :
  tallied (bump pattern_counts p) q
  = tallied pattern_counts q + (if decide (p = q) then 1 else 0).
Proof.
  induction pattern_counts as [|[r n] rest IH]; simpl.
  - rewrite tallied_cons. unfold tallied. simpl. case_decide; lia.
  - destruct (decide (r = p)) as [->|Hr].
    + rewrite !tallied_cons. case_decide; lia.
    + rewrite !tallied_cons, IH. lia.
Qed.

Lemma bump_keys (pattern_counts : list (Pattern * nat)) (p : Pattern) :
  (p ∈ pattern_counts.*1 → (bump pattern_counts p).*1 = pattern_counts.*1)
  ∧ (p ∉ pattern_counts.*1 → (bump pattern_counts p).*1 = pattern_counts.*1 ++ [p]).
Proof.
  induction pattern_counts as [|[r n] rest [IHin IHnot]].
  - split; [by intros ?%elem_of_nil | done].
  - cbn [bump]. destruct (decide (r = p)) as [->|Hr].
    + split; [done|]. intros Hnot. destruct Hnot. apply list_elem_of_here.
    + split.
      * intros [->|Hin]%elem_of_cons; [done|]. cbn. f_equal. by apply IHin.
      * intros Hnot. cbn. f_equal. apply IHnot. intros Hin. apply Hnot.
        by apply list_elem_of_further.
Qed.

Lemma bump_NoDup (pattern_counts : list (Pattern * nat)) (p : Pattern) :
  NoDup pattern_counts.*1 → NoDup (bump pattern_counts p).*1.
Proof.
  intros Hnd. destruct (bump_keys pattern_counts p) as [Hin Hnot].
  destruct (decide (p ∈ pattern_counts.*1)) as [Hp|Hp].
  - by rewrite Hin.
  - rewrite Hnot by done.
    apply NoDup_app. split; [done|]. split; [|apply NoDup_singleton].
    intros x Hx ->%list_elem_of_singleton. done.
Qed.

Lemma bump_positive (pattern_counts : list (Pattern * nat)) (p : Pattern) :
  Forall (λ e, 0 < e.2) pattern_counts → Forall (λ e, 0 < e.2) (bump pattern_counts p).
Proof.
  induction 1 as [|[r n] rest Hn Hrest IH]; simpl.
  - constructor; [simpl; lia | done].
  - case_decide; constructor; simpl in *; try done; lia.
Qed.

Lemma bump_sum (pattern_counts : list (Pattern * nat)) (p : Pattern) :
  sum_list (bump pattern_counts p).*2 = sum_list pattern_counts.*2 + 1.
Proof.
  induction pattern_counts as [|[r n] rest IH]; [done|].
  cbn [bump]. destruct (decide (r = p)) as [->|Hr]; rewrite !fmap_cons; simpl.
  - lia.
  - rewrite IH. lia.
Qed.

Lemma tallied_not_key (pattern_counts : list (Pattern * nat)) (p : Pattern) :
  p ∉ pattern_counts.*1 → tallied pattern_counts p = 0.
Proof.
  induction pattern_counts as [|[r m] rest IH]; [done|].
  rewrite fmap_cons, not_elem_of_cons. simpl. intros [Hne Hnot].
  rewrite tallied_cons, decide_False by congruence. by apply IH.
Qed.

Lemma tallied_elem (pattern_counts : list (Pattern * nat)) (p : Pattern) (n : nat) :
  NoDup pattern_counts.*1 → (p, n) ∈ pattern_counts → tallied pattern_counts p = n.
Proof.
  induction pattern_counts as [|[r m] rest IH]; [by intros _ ?%elem_of_nil|].
  rewrite fmap_cons. simpl.
  intros [Hr Hnd]%NoDup_cons [[= <- <-]|Hin]%elem_of_cons; rewrite tallied_cons.
  - rewrite decide_True by done. rewrite tallied_not_key by done. lia.
  - rewrite decide_False; [by apply IH|].
    intros ->. apply Hr. apply list_elem_of_fmap. by exists (p, n).
Qed.

Lemma tallied_positive_key (pattern_counts : list (Pattern * nat)) (p : Pattern) :
  0 < tallied pattern_counts p → p ∈ pattern_counts.*1.
Proof.
  induction pattern_counts as [|[r m] rest IH]; simpl.
  - unfold tallied. simpl. lia.
  - rewrite tallied_cons. destruct (decide (r = p)) as [->|Hr].
    + intros _. apply list_elem_of_here.
    + intros Hpos. apply list_elem_of_further, IH. lia.
Qed.

(** The loop of [calculate_entropy], without the cache: the dict it builds
    keeps distinct keys and positive counts, and adds to the count of each
    pattern the number of words that give it. *)
Lemma tally_patterns_histogram (word : Word) (words : list Word)
    (pattern_counts pattern_counts' : list (Pattern * nat)) :
  tally_patterns word words pattern_counts = Ok pattern_counts' →
  NoDup pattern_counts.*1 → Forall (λ e, 0 < e.2) pattern_counts →
  NoDup pattern_counts'.*1
  ∧ Forall (λ e, 0 < e.2) pattern_counts'
  ∧ (∀ p, tallied pattern_counts' p
          = tallied pattern_counts p
            + length (filter (λ w, get_pattern word w = Ok p) words))
  ∧ sum_list pattern_counts'.*2 = sum_list pattern_counts.*2 + length words
  ∧ Forall (λ w, ∃ p, get_pattern word w = Ok p) words.
Proof.
  revert pattern_counts. induction words as [|w rest IH]; intros pc; simpl.
  - intros [= <-] Hnd Hpos. repeat split; try done; try (intros p; simpl; lia).
  - destruct (get_pattern word w) as [q|e] eqn:Hq; simpl; [|done].
    intros Hrun Hnd Hpos.
    destruct (IH _ Hrun (bump_NoDup pc q Hnd) (bump_positive pc q Hpos))
      as (Hnd' & Hpos' & Hcount & Hsum & Hall).
    split; [done|]. split; [done|]. split; [|split].
    + intros p. rewrite Hcount, tallied_bump, filter_cons. rewrite Hq.
      destruct (decide (q = p)) as [->|Hne].
      * rewrite decide_True by done. simpl. lia.
      * rewrite decide_False by congruence. lia.
    + rewrite Hsum, bump_sum. lia.
    + constructor; [by exists q | done].
Qed.

(** The histogram [calculate_entropy] builds on a valid cache: its keys are
    distinct, a pattern is a key exactly when some candidate gives it, with
    the number of those candidates as its count, and the counts add up to
    the number of candidates. *)
Theorem tally_histogram (word : Word) (words : list Word) (cache cache' : Cache)
    (pattern_counts : list (Pattern * nat)) :
  cache_valid cache →
  tally word words [] cache = (Ok pattern_counts, cache') →
  NoDup pattern_counts.*1
  ∧ (∀ p n, (p, n) ∈ pattern_counts
            ↔ 0 < n ∧ n = length (filter (λ w, get_pattern word w = Ok p) words))
  ∧ sum_list pattern_counts.*2 = length words.
Proof.
  intros Hvalid Hrun.
  destruct (tally_valid word words [] cache Hvalid) as (cache1 & Hpure & _).
  rewrite Hrun in Hpure. injection Hpure as Hpure _. symmetry in Hpure.
  destruct (tally_patterns_histogram word words [] pattern_counts Hpure)
    as (Hnd & Hpos & Hcount & Hsum & _); [constructor | constructor |].
  split; [done|]. split; [|done].
  intros p n. specialize (Hcount p). unfold tallied at 2 in Hcount. simpl in Hcount.
  split.
  - intros Hin. rewrite Forall_forall in Hpos. specialize (Hpos _ Hin). simpl in Hpos.
    split; [done|]. rewrite <- Hcount. symmetry. by apply tallied_elem.
  - intros [Hn ->]. rewrite <- Hcount in Hn |- *.
    apply tallied_positive_key, list_elem_of_fmap in Hn as ([q m] & -> & Hin).
    simpl. by rewrite (tallied_elem pattern_counts q m Hnd Hin).
Qed.

Lemma tally_histogram_witness :
  let word := word_of "ABIDE" in
  let words := [word_of "ABIDE"; word_of "ABODE"; word_of "ABIDE"] in
  let pattern_counts := [(["C"; "C"; "C"; "C"; "C"], 2); (["C"; "C"; "A"; "C"; "C"], 1)] in
  NoDup pattern_counts.*1
  ∧ (∀ p n, (p, n) ∈ pattern_counts
            ↔ 0 < n ∧ n = length (filter (λ w, get_pattern word w = Ok p) words))
  ∧ sum_list pattern_counts.*2 = length words.
Proof.
  apply (tally_histogram (word_of "ABIDE")
           [word_of "ABIDE"; word_of "ABODE"; word_of "ABIDE"] ∅
           (tally (word_of "ABIDE")
              [word_of "ABIDE"; word_of "ABODE"; word_of "ABIDE"] [] ∅).2
           [(["C"; "C"; "C"; "C"; "C"], 2); (["C"; "C"; "A"; "C"; "C"], 1)]).
  - apply cache_valid_empty.
  - vm_compute. reflexivity.
Defined.

Lemma tally_raises (word : Word) (words : list Word) (pattern_counts : list (Pattern * nat))
    (cache : Cache) (e : exn) :
  (tally word words pattern_counts cache).1 = Raise e →
  e = IndexError ∧ 5 < length word ∧ words ≠ [].
Proof.
  revert pattern_counts cache.
  induction words as [|w rest IH]; intros pc cache; simpl; [done|].
  unfold bind.
  destruct (get_pattern_cached_cases word w cache)
    as [(p & _ & ->)|[(p & _ & _ & ->)|(e' & _ & He & ->)]].
  - intros [? [? _]]%IH. done.
  - intros [? [? _]]%IH. done.
  - simpl. intros [= <-].
    pose proof (get_pattern_outcome word w) as Hres. rewrite He in Hres.
    destruct Hres as [? ->]. done.
Qed.

Lemma tally_nonempty (word : Word) (words : list Word) (pattern_counts pc' : list (Pattern * nat))
    (cache cache' : Cache) :
  tally word words pattern_counts cache = (Ok pc', cache') →
  pc' ≠ [] → words ≠ [] ∨ pattern_counts ≠ [].
Proof.
  destruct words as [|w rest]; simpl; [|by left].
  intros [= <- _] Hne. by right.
Qed.

Section ScorerOutcome.

Variable float : Type.
Variable int_zero : float.
Variable fadd : float → float → float.
Variable entropy_term : nat → nat → float.

Lemma sum_terms_raises (acc : float) (total : nat) (values : list nat) (e : exn) :
  sum_terms float fadd entropy_term acc total values = Raise e →
  total = 0 ∧ values ≠ [].
Proof.
  revert acc. induction values as [|count rest IH]; intros acc; simpl; [done|].
  case_decide; [done|]. intros [? _]%IH. done.
Qed.

Lemma calculate_entropy_result (st : State) (word : Word) (cache : Cache) :
  match (calculate_entropy float int_zero fadd entropy_term st word cache).1 with
  | Ok _ => True
  | Raise e => e = IndexError ∧ 5 < length word ∧ possible st ≠ []
  end.
Proof.
  unfold calculate_entropy, bind.
  pose proof (tally_raises word (possible st) [] cache) as Hraise.
  destruct (tally word (possible st) [] cache) as [[pc|e] cache1] eqn:Hrun; simpl in *.
  - destruct (sum_terms float fadd entropy_term int_zero (length (possible st)) pc.*2)
      as [s|e] eqn:Hsum; [done|].
    apply sum_terms_raises in Hsum as [Hlen Hvals].
    destruct (tally_nonempty word (possible st) [] pc cache cache1 Hrun) as [Hw|Hpc];
      [|by destruct (possible st)|done].
    intros ->. by destruct Hvals.
  - by apply Hraise.
Qed.

(** [calculate_entropy] never raises [ZeroDivisionError] (or [KeyError]),
    whatever the state, the word and the cache: the only exception it can
    raise is the [IndexError] of a word of more than five letters scored
    against a [possible] list that is not empty. *)
Theorem calculate_entropy_outcome (st : State) (word : Word) (cache : Cache) :
  match (calculate_entropy float int_zero fadd entropy_term st word cache).1 with
  | Ok _ => True
  | Raise e => e = IndexError ∧ 5 < length word ∧ possible st ≠ []
  end.
Proof. apply calculate_entropy_result. Qed.

End ScorerOutcome.

(** ** [update_state]: what a returning call leaves *)

Lemma filter_possible_Ok (st : State) (words new_possible : list Word) :
  filter_possible st words = Ok new_possible →
  new_possible = filter (λ w, is_word_valid st w = Ok true) words.
Proof.
  revert new_possible. induction words as [|w rest IH]; intros np; simpl.
  - by intros [= <-].
  - destruct (is_word_valid st w) as [valid|e] eqn:Hw; simpl; [|done].
    destruct (filter_possible st rest) as [r|e]; simpl; [|done].
    intros [= <-]. rewrite filter_cons, Hw, (IH r eq_refl).
    destruct valid; [by rewrite decide_True | by rewrite decide_False].
Qed.

Lemma update_state_Ok (guess : Word) (feedback : list (ascii * string)) (st st' : State) :
  update_state guess feedback st = (Ok (), st') →
  ∃ st1, apply_feedback 0 feedback st = (Ok (), st1)
         ∧ correct st' = correct st1
         ∧ present st' = present (clean_constraints st1)
         ∧ absent st' = absent (clean_constraints st1)
         ∧ possible st' = filter (λ w, is_word_valid st' w = Ok true) (possible st).
Proof.
  rewrite update_state_unfold.
  pose proof (apply_feedback_possible feedback 0 st) as Hposs.
  destruct (apply_feedback 0 feedback st) as [[[]|e] st1]; simpl in *; [|done].
  destruct (filter_possible _ _) as [np|e] eqn:Hf; simpl; [|done].
  intros [= <-]. exists st1. repeat split; try done. simpl.
  apply filter_possible_Ok in Hf. rewrite Hf, Hposs.
  apply list_filter_iff. intros w.
  by rewrite is_word_valid_set_possible.
Qed.

(** When [update_state] returns, the new candidates are the old candidates,
    in their order, for which [is_word_valid] returns [True] in the new
    state; each of them holds the fixed letters at their positions and every
    required letter, and holds no excluded letter. *)
Theorem update_state_candidates (st st' : State) (guess : Word)
    (feedback : list (ascii * string)) :
  update_state guess feedback st = (Ok (), st') →
  possible st' = filter (λ w, is_word_valid st' w = Ok true) (possible st)
  ∧ ∀ w, w ∈ possible st' → satisfies st' w.
Proof.
  intros (st1 & _ & _ & _ & _ & Hposs)%update_state_Ok. split; [done|].
  intros w Hw. rewrite Hposs in Hw. apply list_elem_of_filter in Hw as [Hw _].
  by apply is_word_valid_satisfies.
Qed.

Lemma update_state_candidates_witness :
  let st := initial_state [word_of "CRANE"; word_of "SLATE"; word_of "PLANE"] in
  let st' := mkState [word_of "SLATE"] (word_of "??A?E") ∅
               {[ "C"%char; "R"%char; "N"%char ]} in
  possible st' = filter (λ w, is_word_valid st' w = Ok true) (possible st)
  ∧ ∀ w, w ∈ possible st' → satisfies st' w.
Proof.
  apply (update_state_candidates
           (initial_state [word_of "CRANE"; word_of "SLATE"; word_of "PLANE"])
           (mkState [word_of "SLATE"] (word_of "??A?E") ∅
              {[ "C"%char; "R"%char; "N"%char ]})
           (word_of "CRANE")
           (feedback_of (word_of "CRANE") ["A"; "A"; "C"; "A"; "C"])).
  vm_compute. reflexivity.
Defined.

(** When [update_state] returns, the [correct] list has kept its length, the
    cell at the position of a Correct mark holds the letter of that mark,
    and every other cell is as it was: a fixed letter is never erased. *)
Theorem update_state_fixed_letters (st st' : State) (guess : Word)
    (feedback : list (ascii * string)) :
  update_state guess feedback st = (Ok (), st') →
  length (correct st') = length (correct st)
  ∧ ∀ i, correct st' !! i
         = match feedback !! i with
           | Some (letter, color) =>
               if decide (color = "C") then Some letter else correct st !! i
           | None => correct st !! i
           end.
Proof.
  intros (st1 & Hrun & -> & _)%update_state_Ok. split.
  - pose proof (apply_feedback_correct_length feedback 0 st) as Hlen.
    by rewrite Hrun in Hlen.
  - intros i.
    destruct (apply_feedback_correct feedback 0 st st1 i Hrun)
      as [(j & l & -> & Hj & Hl)|[Hnone Hsame]]; simpl in *.
    + rewrite Hj. by rewrite decide_True.
    + rewrite Hsame. destruct (feedback !! i) as [[letter color]|] eqn:Hi; [|done].
      case_decide as Hc; [|done]. subst color. by destruct (Hnone i letter eq_refl).
Qed.

Lemma update_state_fixed_letters_witness :
  let st := mkState [word_of "SLATE"] (word_of "S????") ∅ ∅ in
  let st' := mkState [word_of "SLATE"] (word_of "S?A?E") ∅
               {[ "C"%char; "R"%char; "N"%char ]} in
  let feedback := feedback_of (word_of "CRANE") ["A"; "A"; "C"; "A"; "C"] in
  length (correct st') = length (correct st)
  ∧ ∀ i, correct st' !! i
         = match feedback !! i with
           | Some (letter, color) =>
               if decide (color = "C") then Some letter else correct st !! i
           | None => correct st !! i
           end.
Proof.
  apply (update_state_fixed_letters
           (mkState [word_of "SLATE"] (word_of "S????") ∅ ∅)
           (mkState [word_of "SLATE"] (word_of "S?A?E") ∅
              {[ "C"%char; "R"%char; "N"%char ]})
           (word_of "CRANE")
           (feedback_of (word_of "CRANE") ["A"; "A"; "C"; "A"; "C"])).
  vm_compute. reflexivity.
Defined.

Lemma update_state_total (st : State) (guess : Word) (feedback : list (ascii * string)) :
  consistent st → length feedback ≤ 5 →
  ∃ st', update_state guess feedback st = (Ok (), st') ∧ consistent st'.
Proof.
  intros Hcons Hlen.
  assert (∃ st', update_state guess feedback st = (Ok (), st')) as [st' Hrun].
  { destruct Hcons as (Hc & Hp & _). rewrite update_state_unfold.
    pose proof (apply_feedback_correct_length feedback 0 st) as Hclen.
    pose proof (apply_feedback_possible feedback 0 st) as Hposs.
    pose proof (apply_feedback_Ok feedback 0 st ltac:(simpl; lia)) as Hok.
    destruct (apply_feedback 0 feedback st) as [r st1]; simpl in *. subst r.
    destruct (filter_possible_total (clean_constraints st1) (possible st1))
      as (np & Hnp & _).
    { rewrite clean_constraints_correct, Hclen, Hc, Hposs. done. }
    rewrite Hnp. by eexists. }
  exists st'. split; [done|]. by eapply consistent_update.
Qed.

(** In a state with five fixed-position cells whose candidates are
    five-letter words that are all valid for it (every state of a session
    is one), [update_state] returns for any feedback of at most five marks,
    whatever they are, and leaves such a state again. *)
Theorem update_state_returns (st : State) (guess : Word) (feedback : list (ascii * string)) :
  consistent st → length feedback ≤ 5 →
  ∃ st', update_state guess feedback st = (Ok (), st') ∧ consistent st'.
Proof. apply update_state_total. Qed.

Lemma update_state_returns_witness :
  ∃ st', update_state (word_of "CRANE")
           (feedback_of (word_of "CRANE") ["P"; "P"; "P"; "P"; "P"])
           (initial_state [word_of "CRANE"; word_of "SLATE"]) = (Ok (), st')
         ∧ consistent st'.
Proof.
  apply (update_state_returns (initial_state [word_of "CRANE"; word_of "SLATE"])
           (word_of "CRANE") (feedback_of (word_of "CRANE") ["P"; "P"; "P"; "P"; "P"])).
  - apply consistent_initial. repeat constructor.
  - vm_compute. lia.
Defined.

(** ** [update_state]: entering the same feedback twice *)

Lemma apply_mark_Ok_iff (i : nat) (letter : ascii) (color : string) (st : State) :
  (apply_mark i letter color st).1 = Ok () ↔ (color = "C" → i < length (correct st)).
Proof.
  unfold apply_mark. case_decide as HC.
  - unfold list_set. case_decide as Hi; simpl.
    + split; [done|]. intros _. by case_decide.
    + split; [done|]. intros Hlt. by destruct (Hi (Hlt HC)).
  - split; [done|]. intros _. repeat case_decide; done.
Qed.

Lemma apply_feedback_Ok_iff (feedback : list (ascii * string)) (i : nat) (st : State) :
  (apply_feedback i feedback st).1 = Ok ()
  ↔ ∀ j l, feedback !! j = Some (l, "C") → i + j < length (correct st).
Proof.
  revert i st. induction feedback as [|[letter color] rest IH]; intros i st.
  - split; [by intros _ j l | done].
  - simpl. unfold bind.
    pose proof (apply_mark_Ok_iff i letter color st) as Hmark.
    pose proof (apply_mark_correct_length i letter color st) as Hlen.
    destruct (apply_mark i letter color st) as [[[]|e] st1]; simpl in *.
    + rewrite IH, Hlen. split.
      * intros Hall [|j] l; simpl.
        -- intros [= -> ->]. rewrite Nat.add_0_r. by apply Hmark.
        -- intros Hj. specialize (Hall j l Hj). lia.
      * intros Hall j l Hj. specialize (Hall (S j) l Hj). lia.
    + split; [done|]. intros Hall.
      destruct Hmark as [_ Hmark]. apply Hmark. intros ->.
      specialize (Hall 0 letter eq_refl). lia.
Qed.

Lemma touches_cons (letter : ascii) (color : string) (rest : list (ascii * string))
    (l : ascii) :
  touches ((letter, color) :: rest) l
  ↔ (letter = l ∧ (color = "C" ∨ color = "P")) ∨ touches rest l.
Proof.
  unfold touches. split.
  - intros ([|j] & c & Hj & Hc); simpl in Hj.
    + injection Hj as -> ->. by left.
    + right. by exists j, c.
  - intros [[-> Hc]|(j & c & Hj & Hc)].
    + by exists 0, color.
    + by exists (S j), c.
Qed.

Lemma touches_dec (feedback : list (ascii * string)) (l : ascii) :
  touches feedback l ∨ ¬ touches feedback l.
Proof.
  induction feedback as [|[letter color] rest IH].
  - right. by intros (j & c & [=] & _).
  - rewrite touches_cons.
    destruct (decide (letter = l)) as [Hl|Hl];
      destruct (decide (color = "C")) as [HC|HC];
      destruct (decide (color = "P")) as [HP|HP]; tauto.
Qed.

(** A letter without Correct or Present mark is required after the loop
    exactly when it was required before. *)
Lemma apply_feedback_present_untouched (feedback : list (ascii * string)) (i : nat)
    (st s : State) (l : ascii) :
  apply_feedback i feedback st = (Ok (), s) →
  ¬ touches feedback l → (l ∈ present s ↔ l ∈ present st).
Proof.
  revert i st. induction feedback as [|[letter color] rest IH]; intros i st.
  - simpl. by intros [= <-].
  - intros (st1 & Hmark & Hrest)%apply_feedback_cons Hnot.
    rewrite touches_cons in Hnot.
    rewrite (IH _ _ Hrest) by tauto.
    apply apply_mark_inv in Hmark as [_ Hmark].
    destruct Hmark as [(-> & _ & _ & -> & _)|[(-> & _ & -> & _)|[(_ & _ & -> & _)|(_ & _ & _ & _ & -> & _)]]];
      try done.
    + rewrite elem_of_difference, elem_of_singleton. split; [tauto|].
      intros Hl. split; [done|]. intros ->. tauto.
    + rewrite elem_of_union, elem_of_singleton. split; [|tauto].
      intros [?| ->]; [done | tauto].
Qed.

(** Whether a letter with a Correct or Present mark is required after the
    loop does not depend on the state the loop started from. *)
Lemma apply_feedback_present_touched (feedback : list (ascii * string)) (i : nat)
    (st st' s s' : State) (l : ascii) :
  apply_feedback i feedback st = (Ok (), s) →
  apply_feedback i feedback st' = (Ok (), s') →
  touches feedback l → (l ∈ present s ↔ l ∈ present s').
Proof.
  revert i st st'. induction feedback as [|[letter color] rest IH]; intros i st st'.
  - by intros _ _ (j & c & [=] & _).
  - intros (st1 & Hmark & Hrest)%apply_feedback_cons
           (st1' & Hmark' & Hrest')%apply_feedback_cons Htouch.
    destruct (touches_dec rest l) as [Hyes|Hno]; [by apply (IH _ _ _ Hrest Hrest')|].
    rewrite (apply_feedback_present_untouched rest _ _ _ l Hrest Hno).
    rewrite (apply_feedback_present_untouched rest _ _ _ l Hrest' Hno).
    apply touches_cons in Htouch as [[-> Hc]|?]; [|done].
    apply apply_mark_inv in Hmark as [_ Hmark].
    apply apply_mark_inv in Hmark' as [_ Hmark'].
    destruct Hc as [->| ->].
    + destruct Hmark as [(_ & _ & _ & -> & _)|[(? & _)|[(? & _)|(? & _)]]]; try done.
      destruct Hmark' as [(_ & _ & _ & -> & _)|[(? & _)|[(? & _)|(? & _)]]]; try done.
      rewrite !elem_of_difference, !elem_of_singleton. tauto.
    + destruct Hmark as [(? & _)|[(_ & _ & -> & _)|[(? & _)|(_ & ? & _)]]]; try done.
      destruct Hmark' as [(? & _)|[(_ & _ & -> & _)|[(? & _)|(_ & ? & _)]]]; try done.
      rewrite !elem_of_union, !elem_of_singleton. tauto.
Qed.

Lemma apply_feedback_absent_iff (feedback : list (ascii * string)) (i : nat)
    (st s : State) (a : ascii) :
  apply_feedback i feedback st = (Ok (), s) →
  a ∈ absent s ↔ a ∈ absent st ∨ ∃ j, feedback !! j = Some (a, "A").
Proof.
  revert i st. induction feedback as [|[letter color] rest IH]; intros i st.
  - simpl. intros [= <-]. split; [by left|]. by intros [?|[j [=]]].
  - intros (st1 & Hmark & Hrest)%apply_feedback_cons.
    rewrite (IH _ _ Hrest).
    apply apply_mark_inv in Hmark as [_ Hmark].
    assert (a ∈ absent st1 ↔ a ∈ absent st ∨ (letter, color) = (a, "A")) as ->.
    { destruct Hmark as [(-> & _ & _ & _ & ->)|[(-> & _ & _ & ->)|[(-> & _ & _ & ->)|(_ & _ & HA & _ & _ & ->)]]].
      - split; [by left | by intros [?|[=]]].
      - split; [by left | by intros [?|[=]]].
      - rewrite elem_of_union, elem_of_singleton. split.
        + intros [?| ->]; [by left | by right].
        + intros [?|[= ->]]; [by left | by right].
      - split; [by left|]. intros [?|[= _ ->]]; done. }
    split.
    + intros [[?|Heq]|[j Hj]]; [by left | right; by exists 0; rewrite Heq
                               | right; by exists (S j)].
    + intros [?|[[|j] Hj]]; [|simpl in Hj..].
      * by left; left.
      * left; right. by injection Hj as -> ->.
      * right. by exists j.
Qed.

Lemma is_word_valid_ext (st st' : State) (word : Word) :
  correct st = correct st' → present st = present st' → absent st = absent st' →
  is_word_valid st word = is_word_valid st' word.
Proof.
  destruct st as [ps cs pr ab], st' as [ps' cs' pr' ab']. simpl. intros -> -> ->.
  apply (is_word_valid_set_possible (mkState ps' cs' pr' ab') ps word).
Qed.

Lemma filter_possible_all_valid (st : State) (words : list Word) :
  Forall (λ w, is_word_valid st w = Ok true) words → filter_possible st words = Ok words.
Proof.
  induction 1 as [|w rest Hw Hrest IH]; simpl; [done|].
  by rewrite Hw, IH.
Qed.

Lemma update_state_twice (st st1 : State) (guess : Word) (feedback : list (ascii * string)) :
  update_state guess feedback st = (Ok (), st1) →
  update_state guess feedback st1 = (Ok (), st1).
Proof.
  rewrite (update_state_unfold guess feedback st).
  destruct (apply_feedback 0 feedback st) as [[[]|e] s1] eqn:Hrun1; simpl; [|done].
  destruct (filter_possible (clean_constraints s1) (possible s1)) as [np|e] eqn:Hf1;
    simpl; [|done].
  intros [= <-].
  set (st1 := set_possible np (clean_constraints s1)).
  pose proof (apply_feedback_correct_length feedback 0 st) as Hlen1.
  rewrite Hrun1 in Hlen1. simpl in Hlen1.
  (* the loop returns again *)
  assert ((apply_feedback 0 feedback st1).1 = Ok ()) as Hok2.
  { apply apply_feedback_Ok_iff. intros j l Hj. simpl. rewrite Hlen1.
    assert ((apply_feedback 0 feedback st).1 = Ok ()) as Hok1 by (by rewrite Hrun1).
    by apply (proj1 (apply_feedback_Ok_iff feedback 0 st) Hok1 j l). }
  pose proof (apply_feedback_possible feedback 0 st1) as Hposs2.
  destruct (apply_feedback 0 feedback st1) as [r s2] eqn:Hrun2. simpl in *. subst r.
  (* and leaves the same constraints *)
  assert (correct s2 = correct s1) as Hc.
  { apply list_eq. intros k.
    destruct (apply_feedback_correct feedback 0 st1 s2 k Hrun2)
      as [(j & l & -> & Hj & Hl)|[Hnone Hsame]]; simpl in *.
    - destruct (apply_feedback_correct feedback 0 st s1 j Hrun1)
        as [(j' & l' & -> & Hj' & Hl')|[Hnone' _]]; simpl in *.
      + congruence.
      + by destruct (Hnone' j l eq_refl).
    - done. }
  assert (present (clean_constraints s2) = present (clean_constraints s1)) as Hp.
  { apply set_eq. intros l. rewrite !clean_constraints_present, Hc.
    destruct (touches_dec feedback l) as [Hyes|Hno].
    - by rewrite (apply_feedback_present_touched feedback 0 st1 st s2 s1 l Hrun2 Hrun1 Hyes).
    - rewrite (apply_feedback_present_untouched feedback 0 st1 s2 l Hrun2 Hno).
      unfold st1. simpl. rewrite elem_of_filter. tauto. }
  assert (absent (clean_constraints s2) = absent (clean_constraints s1)) as Ha.
  { apply set_eq. intros a. rewrite !clean_constraints_absent, Hp, Hc.
    rewrite (apply_feedback_absent_iff feedback 0 st1 s2 a Hrun2).
    rewrite (apply_feedback_absent_iff feedback 0 st s1 a Hrun1).
    unfold st1 at 1. simpl. rewrite elem_of_filter.
    rewrite (apply_feedback_absent_iff feedback 0 st s1 a Hrun1).
    fold (present (clean_constraints s1)). tauto. }
  (* so every candidate is valid again *)
  rewrite update_state_unfold, Hrun2. simpl. rewrite Hposs2. unfold st1 at 1. simpl.
  rewrite (filter_possible_all_valid (clean_constraints s2) np).
  - f_equal.
    change (mkState np (correct s2) (present (clean_constraints s2))
              (absent (clean_constraints s2))
            = mkState np (correct s1) (present (clean_constraints s1))
                (absent (clean_constraints s1))).
    by rewrite Hp, Ha, Hc.
  - apply filter_possible_Ok in Hf1. apply Forall_forall. intros w Hw.
    rewrite Hf1 in Hw. apply list_elem_of_filter in Hw as [Hw _].
    rewrite <- Hw. apply is_word_valid_ext; [by rewrite !clean_constraints_correct | done | done].
Qed.

(** Entering the same guess and feedback a second time changes nothing:
    after a call that returned, the same call returns again and leaves the
    state exactly as it is. *)
Theorem update_state_idempotent (st st1 : State) (guess : Word)
    (feedback : list (ascii * string)) :
  update_state guess feedback st = (Ok (), st1) →
  update_state guess feedback st1 = (Ok (), st1).
Proof. apply update_state_twice. Qed.

Lemma update_state_idempotent_witness :
  let feedback := feedback_of (word_of "SPEED") ["A"; "A"; "P"; "A"; "P"] in
  let st1 := mkState [word_of "ABIDE"] (word_of "?????") {[ "E"%char; "D"%char ]}
               {[ "S"%char; "P"%char ]} in
  update_state (word_of "SPEED") feedback st1 = (Ok (), st1).
Proof.
  apply (update_state_idempotent
           (initial_state [word_of "ABIDE"; word_of "SPEED"])
           (mkState [word_of "ABIDE"] (word_of "?????") {[ "E"%char; "D"%char ]}
              {[ "S"%char; "P"%char ]})
           (word_of "SPEED")
           (feedback_of (word_of "SPEED") ["A"; "A"; "P"; "A"; "P"])).
  vm_compute. reflexivity.
Defined.

(** ** Whole sessions *)

Lemma update_state_sublist (st st' : State) (guess : Word) (feedback : list (ascii * string)) :
  update_state guess feedback st = (Ok (), st') → possible st' `sublist_of` possible st.
Proof.
  intros (st1 & _ & _ & _ & _ & ->)%update_state_Ok. apply sublist_filter.
Qed.

Lemma play_from (st : State) (secret : Word) (guesses : list Word) :
  consistent st → secret ∈ possible st → Forall (λ g, length g ≤ 5) guesses →
  ∃ st', play secret guesses st = (Ok (), st')
         ∧ consistent st' ∧ secret ∈ possible st'
         ∧ possible st' `sublist_of` possible st.
Proof.
  intros Hcons Hsecret Hlen. revert st Hcons Hsecret.
  induction Hlen as [|guess rest Hg Hrest IH]; intros st Hcons Hsecret.
  - exists st. split; [done|]. split; [done|]. split; [done|]. reflexivity.
  - simpl. rewrite (get_pattern_run guess secret Hg).
    destruct (update_state_keeps_secret st guess secret _ Hcons Hsecret
                (get_pattern_run guess secret Hg)) as (st1 & Hrun & Hin).
    unfold bind. rewrite Hrun.
    pose proof (consistent_update st st1 _ _ Hcons Hrun) as Hcons1.
    destruct (IH st1 Hcons1 Hin) as (st' & Hplay & Hcons' & Hin' & Hsub).
    exists st'. split; [done|]. split; [done|]. split; [done|].
    etrans; [done|]. by eapply update_state_sublist.
Qed.

(** A whole game with truthful feedback: from the initial state of a loaded
    answer list that holds the secret, any number of guesses of at most
    five letters can be played without an exception, the secret is a
    candidate at the end, and the candidates are a sublist of the answers. *)
Theorem play_keeps_secret (answers : list Word) (secret : Word) (guesses : list Word) :
  loaded answers → secret ∈ answers → Forall (λ g, length g ≤ 5) guesses →
  ∃ st', play secret guesses (initial_state answers) = (Ok (), st')
         ∧ secret ∈ possible st'
         ∧ possible st' `sublist_of` answers.
Proof.
  intros Hloaded Hsecret Hlen.
  destruct (play_from (initial_state answers) secret guesses
              (consistent_initial answers Hloaded) Hsecret Hlen)
    as (st' & Hplay & _ & Hin & Hsub).
  by exists st'.
Qed.

Lemma play_keeps_secret_witness :
  ∃ st', play (word_of "SLATE") [word_of "CRANE"; word_of "PLANE"; word_of "SLATE"]
           (initial_state [word_of "CRANE"; word_of "SLATE"; word_of "PLANE"])
         = (Ok (), st')
         ∧ word_of "SLATE" ∈ possible st'
         ∧ possible st' `sublist_of` [word_of "CRANE"; word_of "SLATE"; word_of "PLANE"].
Proof.
  apply (play_keeps_secret [word_of "CRANE"; word_of "SLATE"; word_of "PLANE"]
           (word_of "SLATE") [word_of "CRANE"; word_of "PLANE"; word_of "SLATE"]).
  - repeat constructor.
  - apply list_elem_of_further, list_elem_of_here.
  - repeat constructor.
Defined.

Lemma get_pattern_self (g : Word) :
  length g ≤ 5 → ∃ pattern, get_pattern g g = Ok pattern
                            ∧ ∀ i x, g !! i = Some x → pattern !! i = Some "C".
Proof.
  intros Hlen. eexists. split; [by apply get_pattern_run|].
  intros i x Hi. apply (get_pattern_C g g _ i (get_pattern_run g g Hlen)). by exists x.
Qed.

Lemma update_state_secret_alone (st : State) (secret : Word) (pattern : Pattern) :
  consistent st → secret ∈ possible st → "?"%char ∉ secret →
  get_pattern secret secret = Ok pattern →
  ∃ st', update_state secret (feedback_of secret pattern) st = (Ok (), st')
         ∧ secret ∈ possible st'
         ∧ ∀ w, w ∈ possible st' → w = secret.
Proof.
  intros Hcons Hsecret Hq Hpat.
  destruct (update_state_keeps_secret st secret secret pattern Hcons Hsecret Hpat)
    as (st' & Hrun & Hin).
  exists st'. split; [done|]. split; [done|]. intros w Hw.
  destruct (consistent_update st st' _ _ Hcons Hrun) as (Hc' & Hp' & Hv').
  destruct Hcons as (Hc & Hp & _).
  rewrite Forall_forall in Hp, Hp', Hv'.
  pose proof (Hp secret Hsecret) as Hs5. pose proof (Hp' w Hw) as Hw5.
  destruct (is_word_valid_satisfies st' w (Hv' w Hw)) as (V1 & _ & _).
  destruct (get_pattern_self secret ltac:(lia)) as (pattern' & Hpat' & HallC).
  rewrite Hpat in Hpat'. injection Hpat' as <-.
  apply update_state_Ok in Hrun as (s1 & Hloop & Hcs & _).
  apply list_eq. intros i.
  destruct (secret !! i) as [x|] eqn:Hi.
  - apply V1.
    + rewrite Hcs.
      destruct (apply_feedback_correct _ 0 st s1 i Hloop)
        as [(j & l & -> & Hj & Hl)|[Hnone _]]; simpl in *.
      * apply feedback_of_lookup in Hj as [Hj _]. congruence.
      * destruct (Hnone i x eq_refl). apply feedback_of_lookup. split; [done|].
        by apply (HallC i x).
    + intros ->. apply Hq. by eapply list_elem_of_lookup_2.
  - apply lookup_ge_None. apply lookup_ge_None in Hi. lia.
Qed.

(** Guessing the secret itself leaves the secret as the only candidate (in
    as many copies as the candidates held), provided the secret does not
    contain the character ['?'] that marks an unknown position. *)
Theorem update_state_secret_guessed (st : State) (secret : Word) (pattern : Pattern) :
  consistent st → secret ∈ possible st → "?"%char ∉ secret →
  get_pattern secret secret = Ok pattern →
  ∃ st', update_state secret (feedback_of secret pattern) st = (Ok (), st')
         ∧ secret ∈ possible st'
         ∧ ∀ w, w ∈ possible st' → w = secret.
Proof. apply update_state_secret_alone. Qed.

Lemma update_state_secret_guessed_witness :
  ∃ st', update_state (word_of "SLATE")
           (feedback_of (word_of "SLATE") ["C"; "C"; "C"; "C"; "C"])
           (initial_state [word_of "CRANE"; word_of "SLATE"; word_of "PLANE"])
         = (Ok (), st')
         ∧ word_of "SLATE" ∈ possible st'
         ∧ ∀ w, w ∈ possible st' → w = word_of "SLATE".
Proof.
  apply (update_state_secret_guessed
           (initial_state [word_of "CRANE"; word_of "SLATE"; word_of "PLANE"])
           (word_of "SLATE") ["C"; "C"; "C"; "C"; "C"]).
  - apply consistent_initial. repeat constructor.
  - apply list_elem_of_further, list_elem_of_here.
  - vm_compute. intros Hin. repeat (apply elem_of_cons in Hin as [[=]|Hin]).
    by apply elem_of_nil in Hin.
  - vm_compute. reflexivity.
Defined.

(** With a ['?'] in the secret the cell it fixes still reads as unknown, and
    a word that differs there survives the winning guess. *)
Example update_state_question_mark :
  (update_state (word_of "AB?DE") (feedback_of (word_of "AB?DE") ["C"; "C"; "C"; "C"; "C"])
     (initial_state [word_of "AB?DE"; word_of "ABXDE"])).2
  = mkState [word_of "AB?DE"; word_of "ABXDE"] (word_of "AB?DE") ∅ ∅.
Proof. vm_compute. reflexivity. Qed.

(** ** Loading the word lists and building the solver *)

Section ConsoleFacts.

Variable str_upper : Word → Word.
Variable str_strip : Word → Word.

#[local] Abbreviation load_valid_words' := (load_valid_words str_upper str_strip).
#[local] Abbreviation new_solver' := (new_solver str_upper str_strip).
#[local] Abbreviation get_feedback_input' := (get_feedback_input str_upper).

(** What [str.upper] does on text it maps letter by letter (all ASCII text):
    it keeps the length. *)
Hypothesis upper_length : ∀ w, length (str_upper w) = length w.





End ConsoleFacts.



Example load_valid_words_run :
  load_valid_words upper_text strip_text
    {[ "filepath" := [line "crane"; line "  slate "; line "toolong"; line ""] ]} "filepath"
  = Returned [word_of "CRANE"; word_of "SLATE"].
Proof. vm_compute. reflexivity. Qed.


(** ** The feedback prompt and the session driver *)

Lemma zip_fst_take {A B : Type} (l : list A) (k : list B) :
  (zip l k).*1 = take (length k) l.
Proof.
  revert k. induction l as [|x l IH]; intros [|y k]; simpl; try done.
  by rewrite IH.
Qed.

Lemma mark_of_CPA (c : ascii) :
  c ∈ word_of "CPA" →
  String c EmptyString = "C" ∨ String c EmptyString = "P" ∨ String c EmptyString = "A".
Proof.
  unfold word_of. simpl.
  intros [->|[->|[->|?%elem_of_nil]%elem_of_cons]%elem_of_cons]%elem_of_cons; tauto.
Qed.

Section DriverFacts.

Variable str_upper : Word → Word.
Variable str_strip : Word → Word.
Variable float : Type.
Variable int_zero : float.
Variable neg_inf : float.
Variable fadd : float → float → float.
Variable entropy_term : nat → nat → float.
Variable fgt : float → float → bool.

#[local] Abbreviation get_feedback_input' := (get_feedback_input str_upper).
#[local] Abbreviation main_loop' :=
  (main_loop str_upper float int_zero neg_inf fadd entropy_term fgt).
#[local] Abbreviation main' :=
  (main str_upper str_strip float int_zero neg_inf fadd entropy_term fgt).

Lemma get_feedback_input_inv (guess : Word) (inputs rest : list Word)
    (r : io_result (list (ascii * string))) :
  get_feedback_input' guess inputs = (r, rest) →
  match r with
  | Returned feedback =>
      ∃ marks, length marks = 5 ∧ Forall (λ c, c ∈ word_of "CPA") marks
               ∧ feedback = zip guess (map (λ c, String c EmptyString) marks)
               ∧ ∃ skipped line, inputs = skipped ++ line :: rest
  | Failed e => e = EOFError ∧ rest = []
  end.
Proof.
  revert rest. induction inputs as [|line inputs IH]; intros rest; simpl.
  - by intros [= <- <-].
  - case_decide as Hok.
    + intros [= <- <-]. destruct Hok as [Hlen Hall]. eexists. split; [done|].
      split; [done|]. split; [done|]. by exists [], line.
    + intros Hrun. specialize (IH rest Hrun). destruct r as [feedback|e]; [|done].
      destruct IH as (marks & Hlen & Hall & Hfb & skipped & line' & ->).
      exists marks. split; [done|]. split; [done|]. split; [done|].
      by exists (line :: skipped), line'.
Qed.

(** The feedback [get_feedback_input] returns pairs the first five letters
    of the guess, in order, with marks that are each ['C'], ['P'] or ['A'];
    the prompt can fail only with [EOFError], after reading all lines. *)
Theorem get_feedback_input_shape (guess : Word) (inputs rest : list Word)
    (r : io_result (list (ascii * string))) :
  get_feedback_input' guess inputs = (r, rest) →
  match r with
  | Returned feedback =>
      feedback.*1 = take 5 guess
      ∧ Forall (λ e, e.2 = "C" ∨ e.2 = "P" ∨ e.2 = "A") feedback
      ∧ length rest < length inputs
  | Failed e => e = EOFError ∧ rest = []
  end.
Proof.
  intros Hrun%get_feedback_input_inv. destruct r as [feedback|e]; [|done].
  destruct Hrun as (marks & Hlen & Hall & -> & skipped & line' & ->).
  split; [|split].
  - by rewrite zip_fst_take, length_map, Hlen.
  - apply Forall_forall. intros [l m] Hin.
    apply elem_of_zip_r, list_elem_of_fmap in Hin as (c & -> & Hc). simpl.
    rewrite Forall_forall in Hall. by apply mark_of_CPA, Hall.
  - rewrite length_app. simpl. lia.
Qed.

Lemma get_feedback_input_fits (guess : Word) (inputs rest : list Word)
    (feedback : list (ascii * string)) :
  get_feedback_input' guess inputs = (Returned feedback, rest) → length feedback ≤ 5.
Proof.
  intros (marks & Hlen & _ & -> & _)%get_feedback_input_inv.
  rewrite length_zip, length_map. lia.
Qed.

(** A round of [main] cannot fail in [update_state]: in a consistent state
    the feedback that passed the prompt's check is always accepted, and the
    state stays consistent. *)
Theorem get_feedback_input_accepted (st : State) (guess : Word) (inputs rest : list Word)
    (feedback : list (ascii * string)) :
  consistent st →
  get_feedback_input' guess inputs = (Returned feedback, rest) →
  ∃ st', update_state guess feedback st = (Ok (), st') ∧ consistent st'.
Proof.
  intros Hcons Hfb%get_feedback_input_fits. by apply update_state_total.
Qed.





End DriverFacts.

Lemma get_feedback_input_shape_witness :
  let feedback := feedback_of (word_of "CRANE") ["C"; "P"; "A"; "A"; "P"] in
  feedback.*1 = take 5 (word_of "CRANE")
  ∧ Forall (λ e, e.2 = "C" ∨ e.2 = "P" ∨ e.2 = "A") feedback
  ∧ length [word_of "AAAAA"] < length [word_of "hello"; word_of "c p a a p"; word_of "AAAAA"].
Proof.
  apply (get_feedback_input_shape upper_text (word_of "CRANE")
           [word_of "hello"; word_of "c p a a p"; word_of "AAAAA"] [word_of "AAAAA"]
           (Returned (feedback_of (word_of "CRANE") ["C"; "P"; "A"; "A"; "P"]))).
  vm_compute. reflexivity.
Defined.

Lemma get_feedback_input_accepted_witness :
  ∃ st', update_state (word_of "CRANE")
           (feedback_of (word_of "CRANE") ["C"; "P"; "A"; "A"; "P"])
           (initial_state [word_of "CRANE"; word_of "SLATE"]) = (Ok (), st')
         ∧ consistent st'.
Proof.
  apply (get_feedback_input_accepted upper_text
           (initial_state [word_of "CRANE"; word_of "SLATE"]) (word_of "CRANE")
           [word_of "hello"; word_of "c p a a p"] []).
  - apply consistent_initial. repeat constructor.
  - vm_compute. reflexivity.
Defined.


(** A session: the three words load, CRANE is proposed, the typed feedback
    leaves SLATE alone and the loop stops. *)
Example main_run :
  match main upper_text strip_text Z 0%Z (-1)%Z Z.add
          (λ count total : nat, Z.of_nat (count * (total - count))) Z.gtb
          {[ "filepath" := [line "crane"; line "slate"; line "plane"] ]} ∅
          [word_of "what?"; word_of "aacac"] with
  | inl _ => False
  | inr ending =>
      failed ending = None
      ∧ possible (state (final ending)) = [word_of "SLATE"]
      ∧ unread ending = []
  end.
Proof. vm_compute. done. Qed.

(** ** Scoring twice *)

Lemma get_pattern_cached_replay (guess target : Word) (cache cache1 cache2 : Cache)
    (p : Pattern) :
  get_pattern_cached guess target cache = (Ok p, cache1) → cache1 ⊆ cache2 →
  get_pattern_cached guess target cache2 = (Ok p, cache2).
Proof.
  intros Hrun Hsub.
  assert (cache1 !! (guess, target) = Some p) as Hin.
  { destruct (get_pattern_cached_cases guess target cache)
      as [(q & Hhit & Hq)|[(q & Hmiss & Hp & Hq)|(e & _ & _ & Hq)]];
      rewrite Hq in Hrun; [| |done].
    - by injection Hrun as -> <-.
    - injection Hrun as -> <-. by rewrite lookup_insert_eq. }
  pose proof (lookup_weaken _ _ _ _ Hin Hsub) as Hin2.
  destruct (get_pattern_cached_cases guess target cache2)
    as [(q & Hhit & ->)|[(q & Hmiss & _)|(e & Hmiss & _)]]; congruence.
Qed.

Lemma tally_grows (word : Word) (words : list Word) (pattern_counts : list (Pattern * nat))
    (cache : Cache) :
  cache ⊆ (tally word words pattern_counts cache).2.
Proof.
  revert pattern_counts cache. induction words as [|w rest IH]; intros pc cache; simpl;
    [done|].
  unfold bind. pose proof (get_pattern_cached_grows word w cache) as Hg.
  destruct (get_pattern_cached word w cache) as [[p|e] cache1]; simpl in *; [|done].
  etrans; [exact Hg | apply IH].
Qed.

Lemma tally_replay (word : Word) (words : list Word)
    (pattern_counts pattern_counts' : list (Pattern * nat)) (cache cache1 cache2 : Cache) :
  tally word words pattern_counts cache = (Ok pattern_counts', cache1) → cache1 ⊆ cache2 →
  tally word words pattern_counts cache2 = (Ok pattern_counts', cache2).
Proof.
  revert pattern_counts cache. induction words as [|w rest IH]; intros pc cache; simpl.
  - by intros [= <- <-] _.
  - unfold bind.
    destruct (get_pattern_cached word w cache) as [[p|e] c1] eqn:Hhead; [|done].
    intros Hrest Hsub.
    pose proof (tally_grows word rest (bump pc p) c1) as Hg. rewrite Hrest in Hg.
    simpl in Hg.
    rewrite (get_pattern_cached_replay word w cache c1 cache2 p Hhead) by (by etrans).
    by apply (IH _ c1).
Qed.

Section ScoringTwice.

Variable float : Type.
Variable int_zero : float.
Variable neg_inf : float.
Variable fadd : float → float → float.
Variable entropy_term : nat → nat → float.
Variable fgt : float → float → bool.

#[local] Abbreviation calculate_entropy' :=
  (calculate_entropy float int_zero fadd entropy_term).
#[local] Abbreviation best_loop' := (best_loop float int_zero fadd entropy_term fgt).
#[local] Abbreviation get_best_guess' :=
  (get_best_guess float int_zero neg_inf fadd entropy_term fgt).

Lemma calculate_entropy_grows (st : State) (word : Word) (cache : Cache) :
  cache ⊆ (calculate_entropy' st word cache).2.
Proof.
  unfold calculate_entropy, bind.
  pose proof (tally_grows word (possible st) [] cache) as Hg.
  by destruct (tally word (possible st) [] cache) as [[pc|e] c1].
Qed.

Lemma calculate_entropy_replay (st : State) (word : Word) (cache cache1 cache2 : Cache)
    (score : float) :
  calculate_entropy' st word cache = (Ok score, cache1) → cache1 ⊆ cache2 →
  calculate_entropy' st word cache2 = (Ok score, cache2).
Proof.
  unfold calculate_entropy, bind.
  destruct (tally word (possible st) [] cache) as [[pc|e] c1] eqn:Htally; [|done].
  intros [= Hscore <-] Hsub.
  by rewrite (tally_replay word (possible st) [] pc cache c1 cache2 Htally Hsub), Hscore.
Qed.

Lemma best_loop_grows (st : State) (candidates : list Word) (best_word : option Word)
    (best_score : float) (cache : Cache) :
  cache ⊆ (best_loop' st candidates best_word best_score cache).2.
Proof.
  revert best_word best_score cache.
  induction candidates as [|w rest IH]; intros bw bs cache; simpl; [done|].
  unfold bind. pose proof (calculate_entropy_grows st w cache) as Hg.
  destruct (calculate_entropy' st w cache) as [[score|e] c1]; simpl in *; [|done].
  destruct (fgt score bs); (etrans; [exact Hg | apply IH]).
Qed.

Lemma best_loop_replay (st : State) (candidates : list Word) (best_word r : option Word)
    (best_score : float) (cache cache1 cache2 : Cache) :
  best_loop' st candidates best_word best_score cache = (Ok r, cache1) → cache1 ⊆ cache2 →
  best_loop' st candidates best_word best_score cache2 = (Ok r, cache2).
Proof.
  revert best_word best_score cache.
  induction candidates as [|w rest IH]; intros bw bs cache; simpl.
  - by intros [= <- <-] _.
  - unfold bind.
    destruct (calculate_entropy' st w cache) as [[score|e] c1] eqn:Hhead; [|done].
    intros Hrest Hsub.
    assert (c1 ⊆ cache1) as Hg.
    { destruct (fgt score bs).
      - pose proof (best_loop_grows st rest (Some w) score c1) as Hg.
        by rewrite Hrest in Hg.
      - pose proof (best_loop_grows st rest bw bs c1) as Hg. by rewrite Hrest in Hg. }
    rewrite (calculate_entropy_replay st w cache c1 cache2 score Hhead) by (by etrans).
    destruct (fgt score bs); by apply (IH _ _ c1).
Qed.

(** Asking for the best guess again, with nothing changed in between,
    returns the same word and leaves the cache as it is: the first call has
    stored every pattern the second one looks up. The cache may hold
    anything at the start. *)
Theorem get_best_guess_repeat (solver : Solver) (cache cache1 : Cache) (r : option Word) :
  get_best_guess' solver cache = (Ok r, cache1) →
  get_best_guess' solver cache1 = (Ok r, cache1) ∧ cache ⊆ cache1.
Proof.
  unfold get_best_guess. intros Hrun. split.
  - by apply (best_loop_replay _ _ _ _ _ cache cache1 cache1).
  - pose proof (best_loop_grows (state solver) (take 2315 (allowed solver)) None neg_inf
                  cache) as Hg.
    by rewrite Hrun in Hg.
Qed.

End ScoringTwice.

Lemma get_best_guess_repeat_witness :
  let solver :=
    mkSolver [word_of "ABIDE"; word_of "ABODE"]
      [word_of "CRANE"; word_of "ABIDE"; word_of "ABODE"]
      (initial_state [word_of "ABIDE"; word_of "ABODE"]) in
  let term := λ count total : nat, Z.of_nat (count * (total - count)) in
  let cache1 := (get_best_guess Z 0%Z (-1)%Z Z.add term Z.gtb solver ∅).2 in
  get_best_guess Z 0%Z (-1)%Z Z.add term Z.gtb solver cache1
  = (Ok (Some (word_of "ABIDE")), cache1)
  ∧ ∅ ⊆ cache1.
Proof.
  apply (get_best_guess_repeat Z 0%Z (-1)%Z Z.add
           (λ count total : nat, Z.of_nat (count * (total - count))) Z.gtb
           (mkSolver [word_of "ABIDE"; word_of "ABODE"]
              [word_of "CRANE"; word_of "ABIDE"; word_of "ABODE"]
              (initial_state [word_of "ABIDE"; word_of "ABODE"])) ∅).
  vm_compute. reflexivity.
Defined.
